(** * trend-keywords-bot: the collection / ranking pipeline of [app.py]

    A shallow embedding of the pure core of [app.py] (dedup, the token
    extractor, the keyword ranker, the evidence indexer, the channel
    resolver) and of the control flow of [main], together with the
    properties the specification states about them. *)

From Stdlib Require Import ZArith NArith Ascii String.
From stdpp Require Import base option list sorting countable gmap sets.

Local Open Scope Z_scope.
Local Open Scope nat_scope.

(** ** Python strings

    A Python [str] is a sequence of Unicode code points.  Code points are
    numbers; the ASCII range is below 128. *)

Definition char := N.
Definition str := list char.

(** The ASCII string literals of the source, written as Rocq strings. *)
Definition lit (s : string) : str := N_of_ascii <$> list_ascii_of_string s.

Definition is_ascii (c : char) : bool := (c <? 128)%N.
Definition in_range (lo hi c : N) : bool := ((lo <=? c) && (c <=? hi))%N.

Definition is_upper_AZ (c : char) : bool := in_range 65 90 c.
Definition is_lower_az (c : char) : bool := in_range 97 122 c.
Definition is_digit_09 (c : char) : bool := in_range 48 57 c.

Definition ascii_lower (c : char) : char := if is_upper_AZ c then (c + 32)%N else c.
Definition ascii_upper (c : char) : char := if is_lower_az c then (c - 32)%N else c.

(** [str.isspace] on the ASCII range: TAB..CR, FS..US and the space. *)
Definition ascii_isspace (c : char) : bool :=
  in_range 9 13 c || in_range 28 31 c || (c =? 32)%N.

(** [\w] on the ASCII range. *)
Definition ascii_isword (c : char) : bool :=
  is_upper_AZ c || is_lower_az c || is_digit_09 c || (c =? 95)%N.

(** The Unicode character database of the Python runtime is not part of
    the repository: what it says beyond ASCII is a parameter of the
    development.  On ASCII-only strings every operation below is fully
    determined, as it is in CPython. *)
Record unicode_db := UnicodeDb {
  uni_lower : str → str;        (* str.lower on a non-ASCII string *)
  uni_upper : str → str;        (* str.upper on a non-ASCII string *)
  uni_isdigit : str → bool;     (* str.isdigit on a non-ASCII string *)
  uni_isspace : char → bool;    (* whitespace beyond ASCII *)
  uni_isalnum : char → bool;    (* alphanumerics beyond ASCII *)
}.

(** A database that knows nothing beyond ASCII; used to run examples. *)
Definition ascii_db : unicode_db :=
  {| uni_lower := id; uni_upper := id; uni_isdigit := λ _, false;
     uni_isspace := λ _, false; uni_isalnum := λ _, false |}.

Section strings.
Context (U : unicode_db).

Definition str_lower (s : str) : str :=
  if forallb is_ascii s then ascii_lower <$> s else uni_lower U s.

Definition str_upper (s : str) : str :=
  if forallb is_ascii s then ascii_upper <$> s else uni_upper U s.

Definition str_isdigit (s : str) : bool :=
  if forallb is_ascii s
  then negb (bool_decide (s = [])) && forallb is_digit_09 s
  else uni_isdigit U s.

Definition isspace (c : char) : bool :=
  if is_ascii c then ascii_isspace c else uni_isspace U c.

(** [\w] of a [str] pattern: alphanumeric or underscore. *)
Definition isword (c : char) : bool :=
  if is_ascii c then ascii_isword c else uni_isalnum U c.
End strings.

(** ** Items and [dedup] *)

(** An item is the tuple [(src, title, link)]. *)
Definition item : Type := str * str * str.

Definition item_source (it : item) : str := it.1.1.
Definition item_title (it : item) : str := it.1.2.
Definition item_link (it : item) : str := it.2.

(** Truthiness of a string: [if s] holds when [s] is not empty. *)
Definition truthy (s : str) : bool := negb (bool_decide (s = [])).

Section dedup.
Context (U : unicode_db).

(** [key = (title.lower(), link)] *)
Definition dedup_key (it : item) : str * str :=
  (str_lower U (item_title it), item_link it).

(** One iteration of the loop of [dedup] on the state [(seen, out)]. *)
Definition dedup_step (st : gset (str * str) * list item) (it : item)
  : gset (str * str) * list item :=
  let key := dedup_key it in
  if bool_decide (key ∈ st.1) then st
  else ({[key]} ∪ st.1, st.2 ++ [it]).

Definition dedup (items : list item) : list item :=
  (foldl dedup_step (∅, []) items).2.

(** What the loop still appends when it has [seen] and reads [items]. *)
Fixpoint dedup_from (seen : gset (str * str)) (items : list item) : list item :=
  match items with
  | [] => []
  | it :: rest =>
      if bool_decide (dedup_key it ∈ seen) then dedup_from seen rest
      else it :: dedup_from ({[dedup_key it]} ∪ seen) rest
  end.
End dedup.

(** ** Regular expressions

    The two patterns of the source, as matchers: a matcher is given the
    character before the current position (for [\b]) and the rest of the
    text, and answers the length of the match that starts there. *)

Definition matcher := option char → str → option nat.

(** A greedy run of characters of one class. *)
Fixpoint greedy (p : char → bool) (s : str) : nat :=
  match s with
  | c :: r => if p c then S (greedy p r) else 0
  | [] => 0
  end.

(** Backtracking of a greedy repetition: the largest count [j] with
    [lo ≤ j ≤ k] after which the rest of the pattern [ok] matches. *)
Fixpoint backtrack (ok : nat → bool) (lo k : nat) : option nat :=
  if k <? lo then None
  else if ok k then Some k
  else match k with
       | O => None
       | S k' => backtrack ok lo k'
       end.

(** [finditer]: the non-overlapping matches, scanning left to right; each
    with its start offset.  [skip] counts the characters still covered by
    the previous match. *)
Fixpoint finditer_from (m : matcher) (skip pos : nat) (prev : option char) (s : str)
  : list (nat * str) :=
  match s with
  | [] => []
  | c :: rest =>
      match skip with
      | S k => finditer_from m k (S pos) (Some c) rest
      | O =>
          match m prev s with
          | Some n => (pos, take n s) :: finditer_from m (pred n) (S pos) (Some c) rest
          | None => finditer_from m 0 (S pos) (Some c) rest
          end
      end
  end.

Definition finditer (m : matcher) (s : str) : list (nat * str) :=
  finditer_from m 0 0 None s.

(** The spans [(start, w)] lie in [text] from offset [lo] on, left to
    right and without overlap, each [w] being the text at its [start]. *)
Fixpoint spans_from (lo : nat) (text : str) (spans : list (nat * str)) : Prop :=
  match spans with
  | [] => True
  | (p, w) :: spans' =>
      lo ≤ p ∧ take (length w) (drop p text) = w ∧ spans_from (p + length w) text spans'
  end.

(** [search]: the leftmost match. *)
Fixpoint search_from (m : matcher) (prev : option char) (s : str) : option str :=
  match m prev s with
  | Some n => Some (take n s)
  | None =>
      match s with
      | [] => None
      | c :: rest => search_from m (Some c) rest
      end
  end.

Definition search (m : matcher) (s : str) : option str := search_from m None s.

(** [[A-Za-z0-9]] and [[A-Za-z0-9#\+\.\-]] *)
Definition tok_start (c : char) : bool :=
  is_upper_AZ c || is_lower_az c || is_digit_09 c.
Definition tok_cont (c : char) : bool :=
  tok_start c || (c =? 35)%N || (c =? 43)%N || (c =? 46)%N || (c =? 45)%N.

(** [TOKEN_RE = [A-Za-z0-9][A-Za-z0-9#\+\.\-]{1,30}] *)
Definition TOKEN_RE : matcher := λ _ s,
  match s with
  | c :: rest =>
      if tok_start c then
        let n := greedy tok_cont (take 30 rest) in
        if 1 <=? n then Some (S n) else None
      else None
  | [] => None
  end.

(** The stopword table of the source. *)
Definition STOPWORDS : gset str :=
  list_to_set (lit <$>
    [ "the"; "of"; "and"; "for"; "with"; "from"; "this"; "that"; "what"; "when";
      "where"; "how"; "why"; "who"; "whose"; "your"; "you"; "into"; "out"; "are";
      "is"; "in"; "on"; "to"; "a"; "an"; "by"; "at"; "as"; "or"; "not";
      "home"; "about"; "login"; "signup"; "tags"; "jobs"; "help"; "privacy";
      "terms"; "stackexchange"; "stackoverflow"; "qiita"; "github"; "trending";
      "follow"; "issue"; "pull" ]%string).

Section word_boundary.
Context (U : unicode_db).

Definition isword_at (c : option char) : bool :=
  match c with Some c => isword U c | None => false end.

(** [\b] between the characters [prev] and [next]. *)
Definition word_boundary (prev next : option char) : bool :=
  xorb (isword_at prev) (isword_at next).

Definition id_first (c : char) : bool := (c =? 67)%N || (c =? 71)%N.
Definition id_rest (c : char) : bool := is_upper_AZ c || is_digit_09 c.

(** [ID_RE = \b[CG][A-Z0-9]{8,}\b] *)
Definition ID_RE : matcher := λ prev s,
  match s with
  | c :: rest =>
      if word_boundary prev (Some c) && id_first c then
        let ok j := word_boundary (last (take (S j) s)) (rest !! j) in
        S <$> backtrack ok 8 (greedy id_rest rest)
      else None
  | [] => None
  end.
End word_boundary.

(** ** Token extraction and ranking *)

(** [collections.Counter]: a dictionary in insertion order with integer
    counts, as an association list with distinct keys. *)
Definition counter := list (str * nat).

(** [counter[t] += 1]: a present key keeps its place, a new key is
    appended with count 1. *)
Fixpoint counter_incr (t : str) (c : counter) : counter :=
  match c with
  | [] => [(t, 1)]
  | (k, n) :: c' =>
      if bool_decide (k = t) then (k, S n) :: c' else (k, n) :: counter_incr t c'
  end.

(** [sorted(c.items(), key=itemgetter(1), reverse=True)]: Python's sort is
    stable, also with [reverse=True]; here as a stable insertion sort. *)
Fixpoint insert_desc (x : str * nat) (l : counter) : counter :=
  match l with
  | [] => [x]
  | y :: l' => if x.2 <? y.2 then y :: insert_desc x l' else x :: l
  end.

Definition sorted_desc (c : counter) : counter := foldr insert_desc [] c.

(** [Counter.most_common(n)] is [heapq.nlargest(n, items, key=count)], which
    answers the first [n] entries of the stable descending sort, and
    nothing when [n ≤ 0]. *)
Definition most_common (n : Z) (c : counter) : counter :=
  take (Z.to_nat n) (sorted_desc c).

(** *** The vocabulary of the ranking properties *)

(** The number of occurrences of [t] in a sequence of tokens. *)
Definition occurrences (t : str) (ts : list str) : nat :=
  length (filter (λ x, x = t) ts).

(** The distinct tokens of a sequence, in the order of their first
    occurrence. *)
Fixpoint first_occurrences (ts : list str) : list str :=
  match ts with
  | [] => []
  | t :: r => t :: filter (λ x, x ≠ t) (first_occurrences r)
  end.

(** The position of the first occurrence of [t]. *)
Fixpoint index_of (t : str) (ts : list str) : nat :=
  match ts with
  | [] => 0
  | x :: r => if bool_decide (x = t) then 0 else S (index_of t r)
  end.

(** The position at which [t] reaches the count it has in the end: the
    least [i] such that the first [i + 1] tokens hold every occurrence. *)
Definition reached_at (t : str) (ts : list str) : nat :=
  default 0 (fst <$> list_find (λ i, occurrences t (take (S i) ts) = occurrences t ts)
                               (seq 0 (length ts))).

(** [x] stands before [y] in the list [l]. *)
Definition before {A} (x y : A) (l : list A) : Prop :=
  ∃ i j, i < j ∧ l !! i = Some x ∧ l !! j = Some y.

(** The token-count table of a token sequence: one entry per distinct
    token, in insertion order, with its number of occurrences. *)
Definition token_table (ts : list str) : counter :=
  (λ t, (t, occurrences t ts)) <$> first_occurrences ts.

Section analysis.
Context (U : unicode_db).
(** [TOP_K] and [POST_LIMIT_PER_SOURCE] are read from the environment
    with [int(...)]: any integer. *)
Context (TOP_K POST_LIMIT_PER_SOURCE : Z).

(** The filter of [extract_tokens]: [True] when the match is skipped. *)
Definition token_rejected (w : str) : bool :=
  let lw := str_lower U w in
  bool_decide (lw ∈ STOPWORDS) || str_isdigit U lw || (length w <=? 1).

Definition extract_tokens (text : str) : list str :=
  foldl (λ tokens m, if token_rejected m.2 then tokens else tokens ++ [m.2])
        [] (finditer TOKEN_RE text).

(** The first loop of [analyze]. *)
Definition count_tokens (items : list item) : counter :=
  foldl (λ c it, foldl (λ c t, counter_incr t c) c (extract_tokens (item_title it)))
        [] items.

(** [len(related[k])]; every [k] of [top] is a key of [related]. *)
Definition related_len (related : gmap str (list item)) (k : str) : Z :=
  Z.of_nat (length (default [] (related !! k))).

(** The body of the inner loop of the second pass of [analyze]. *)
Definition relate_step (toks : gset str) (it : item)
    (related : gmap str (list item)) (kc : str * nat) : gmap str (list item) :=
  let k := kc.1 in
  if bool_decide (k ∈ toks) && truthy (item_link it)
     && (related_len related k <? POST_LIMIT_PER_SOURCE)%Z
  then <[k := default [] (related !! k) ++ [it]]> related
  else related.

Definition relate (top : counter) (items : list item) : gmap str (list item) :=
  foldl (λ related it,
           let toks : gset str := list_to_set (extract_tokens (item_title it)) in
           foldl (relate_step toks it) related top)
        (list_to_map ((λ kc : str * nat, (kc.1, [])) <$> top)) items.

Definition analyze (items : list item) : counter * gmap str (list item) :=
  let top := most_common TOP_K (count_tokens items) in
  (top, relate top items).

(** The tokens of all titles, in the order in which [analyze] counts them. *)
Definition token_stream (items : list item) : list str :=
  concat ((λ it, extract_tokens (item_title it)) <$> items).

(** An item may stand as evidence for the keyword [k]. *)
Definition eligible (k : str) (it : item) : Prop :=
  k ∈ (list_to_set (extract_tokens (item_title it)) : gset str) ∧ item_link it ≠ [].

#[global] Instance eligible_dec k it : Decision (eligible k it).
Proof. unfold eligible. apply _. Defined.

(** What one item does to the evidence list [ev] of the keyword [k]. *)
Definition evidence_step (k : str) (ev : list item) (it : item) : list item :=
  if bool_decide (eligible k it) && (Z.of_nat (length ev) <? POST_LIMIT_PER_SOURCE)%Z
  then ev ++ [it] else ev.
End analysis.

(** ** Channel resolution *)

Inductive exn :=
  | RuntimeError (msg : str)
  | IndexError
  | TypeError.

(** A computation that may raise. *)
Definition result (A : Type) : Type := exn + A.

#[global] Instance result_ret : MRet result := λ A x, inr x.
#[global] Instance result_bind : MBind result :=
  λ A B f x, match x with inl e => inl e | inr a => f a end.

Fixpoint drop_while (p : char → bool) (s : str) : str :=
  match s with
  | c :: r => if p c then drop_while p r else s
  | [] => []
  end.

Section channel.
Context (U : unicode_db).

Definition lstrip (s : str) : str := drop_while (isspace U) s.
Definition rstrip (s : str) : str := reverse (lstrip (reverse s)).
(** [s.strip()] *)
Definition strip (s : str) : str := rstrip (lstrip s).

(** [s.lstrip(chars)] *)
Definition lstrip_chars (chars s : str) : str :=
  drop_while (λ c, bool_decide (c ∈ chars)) s.

(** [s.split()]: the maximal runs of non-whitespace; [cur] is the run
    being read. *)
Fixpoint split_from (cur s : str) : list str :=
  match s with
  | [] => if bool_decide (cur = []) then [] else [cur]
  | c :: r =>
      if isspace U c
      then (if bool_decide (cur = []) then split_from [] r else cur :: split_from [] r)
      else split_from (cur ++ [c]) r
  end.

Definition split (s : str) : list str := split_from [] s.

Definition resolve_channel_id (raw : str) : result str :=
  if negb (truthy raw) then inl (RuntimeError (lit "SLACK_CHANNEL_ID is empty"))
  else
    let s := strip raw in
    match search (ID_RE U) (str_upper U s) with
    | Some m => inr m
    | None =>
        match split (lstrip_chars (lit "#") s) with
        | [] => inl IndexError
        | name :: _ => inr name
        end
    end.
End channel.

(** ** Parsers

    The documents are read through BeautifulSoup, which is not part of the
    repository: a fetched page is given by what the selectors of the source
    find in it, in document order. *)

Record anchor := Anchor {
  a_text : str;             (* get_text(strip=True) *)
  a_href : option str;      (* a.get("href") *)
}.

Record html_page := HtmlPage {
  sel_articles : list anchor;    (* a[href^='/articles/'] *)
  sel_questions : list anchor;   (* a.question-hyperlink *)
  sel_repos : list anchor;       (* article h2 a *)
  sel_paragraphs : list str;     (* article p, get_text(" ", strip=True) *)
}.

Record link_tag := LinkTag {
  l_href : option str;
  l_text : str;
}.

Record feed_entry := FeedEntry {
  e_title : option str;          (* it.title, its stripped text *)
  e_link : option link_tag;      (* it.link *)
}.

(** [x or y] on an optional string. *)
Definition or_else (x : option str) (y : str) : str :=
  match x with
  | Some s => if truthy s then s else y
  | None => y
  end.

(** [href.startswith(p)] *)
Definition startswith (p s : str) : bool := bool_decide (take (length p) s = p).

Section parsers.
Context (U : unicode_db).

(** ["https://qiita.com" + a.get("href")] raises on a missing attribute. *)
Definition parse_qiita_trend (page : html_page) : result (list item) :=
  items ← mapM (M := result) (λ a,
             match a_href a with
             | Some href => inr (a_text a, lit "https://qiita.com" ++ href)
             | None => inl TypeError
             end) (sel_articles page);
  inr (dedup U ((λ tl : str * str, (lit "Qiita", tl.1, tl.2)) <$>
                filter (λ tl, truthy tl.1 && truthy tl.2) items)).

Definition parse_stackoverflow_hot (page : html_page) : list item :=
  dedup U (omap (λ q,
    match a_href q with
    | Some href =>
        if truthy href then
          Some (lit "StackOverflow", a_text q,
                if startswith (lit "http") href then href
                else lit "https://stackexchange.com" ++ href)
        else None
    | None => None
    end) (sel_questions page)).

Definition parse_github_trending (page : html_page) : list item :=
  dedup U (omap (λ repo,
             match a_href repo with
             | Some href =>
                 if truthy href
                 then Some (lit "GitHubTrending", a_text repo, lit "https://github.com" ++ href)
                 else None
             | None => None
             end) (sel_repos page)
           ++ omap (λ t, if truthy t then Some (lit "GitHubTrending", t, []) else None)
                   (sel_paragraphs page)).

Definition parse_rss_generic (entries : list feed_entry) (source_name : str) : list item :=
  dedup U (omap (λ it,
    let title := default [] (e_title it) in
    let link := match e_link it with
                | Some l => or_else (l_href l) (l_text l)
                | None => []
                end in
    if truthy title then Some (source_name, title, link) else None) entries).
End parsers.

(** ** The run: [main] and its effects *)

Record source := Source { src_name : str; src_url : str }.

(** [sources.yaml]: the two groups, [sources.get("html", [])] and
    [sources.get("rss", [])]. *)
Record sources := Sources { html_sources : list source; rss_sources : list source }.

Inductive message :=
  | WarnHtmlFetchFailed (name : str)
  | WarnRssFetchFailed (name : str)
  | NoItemsFetched            (* "No items fetched. Skipping Slack post and Pages update." *)
  | NoKeywordsExtracted       (* "No keywords extracted. Skipping post." *)
  | WarnThreadPostFailed (keyword : str)
  | Done.

Inductive pause := HtmlPause | RssPause.

(** What a run does to the outside, in order. *)
Inductive event :=
  | Print (m : message)
  | Sleep (p : pause)
  | MkdirDocs
  | WriteDigest (fname : str) (top : counter) (related : gmap str (list item))
  | WriteIndex (lines : list str)
  | PostParent (channel : str) (top : counter)
  | PostThread (channel : str) (keyword : str) (links : list item).

(** What the outside answers during one run. *)
Record world := World {
  environ : string → option str;
  sources_yaml : sources;
  http_html : str → option html_page;         (* [None]: the request raised *)
  http_rss : str → option (list feed_entry);
  today : str;                                (* the date label, JST *)
  index_md : option (list str);               (* the lines of docs/index.md *)
  slack_parent_ok : bool;
  slack_parent_error : option str;            (* [e.response.get('error')] of a refusal *)
  slack_thread_ok : str → bool;
}.

(** Effectful code: the trace of events so far is threaded through, and a
    raised exception stops the computation. *)
Definition io (A : Type) : Type := list event → list event * result A.

#[global] Instance io_ret : MRet io := λ A x tr, (tr, inr x).
#[global] Instance io_bind : MBind io :=
  λ A B f m tr, match m tr with
                | (tr', inr a) => f a tr'
                | (tr', inl e) => (tr', inl e)
                end.

Definition emit (e : event) : io unit := λ tr, (tr ++ [e], inr ()).
Definition raise {A} (e : exn) : io A := λ tr, (tr, inl e).

(** ["# 週次アーカイブ"] *)
Definition index_title : str :=
  [35; 32; 36913; 27425; 12450; 12540; 12459; 12452; 12502]%N.

Section run.
Context (U : unicode_db) (TOP_K POST_LIMIT_PER_SOURCE : Z) (w : world).

Definition must_env (name : string) : io str :=
  match environ w name with
  | Some v =>
      if truthy v then mret v
      else raise (RuntimeError (lit "ENV '" ++ lit name ++ lit "' is required but not set"))
  | None => raise (RuntimeError (lit "ENV '" ++ lit name ++ lit "' is required but not set"))
  end.

(** The items one HTML source adds; [None] when the [try] block raised. *)
Definition html_items (s : source) : option (list item) :=
  match http_html w (src_url s) with
  | None => None
  | Some page =>
      if bool_decide (src_name s = lit "qiita_trend") then
        match parse_qiita_trend U page with
        | inr its => Some its
        | inl _ => None
        end
      else if bool_decide (src_name s = lit "stackoverflow_hot") then
        Some (parse_stackoverflow_hot U page)
      else if bool_decide (src_name s = lit "github_trending") then
        Some (parse_github_trending U page)
      else Some []
  end.

Definition rss_items (s : source) : option (list item) :=
  match http_rss w (src_url s) with
  | None => None
  | Some entries => Some (parse_rss_generic U entries (src_name s))
  end.

Fixpoint collect_html (ss : list source) (items : list item) : io (list item) :=
  match ss with
  | [] => mret items
  | s :: ss' =>
      match html_items s with
      | Some its => _ ← emit (Sleep HtmlPause); collect_html ss' (items ++ its)
      | None => _ ← emit (Print (WarnHtmlFetchFailed (src_name s))); collect_html ss' items
      end
  end.

Fixpoint collect_rss (ss : list source) (items : list item) : io (list item) :=
  match ss with
  | [] => mret items
  | s :: ss' =>
      match rss_items s with
      | Some its => _ ← emit (Sleep RssPause); collect_rss ss' (items ++ its)
      | None => _ ← emit (Print (WarnRssFetchFailed (src_name s))); collect_rss ss' items
      end
  end.

(** The two fetch loops of [main]. *)
Definition collect : io (list item) :=
  items ← collect_html (html_sources (sources_yaml w)) [];
  collect_rss (rss_sources (sources_yaml w)) items.

Definition save_markdown (top_list : counter) (related_map : gmap str (list item))
    (date_label : str) : io str :=
  _ ← emit MkdirDocs;
  let fname := lit "docs/" ++ date_label ++ lit ".md" in
  _ ← emit (WriteDigest fname top_list related_map);
  let base := default [index_title; []] (index_md w) in
  let rel := lit "- [" ++ date_label ++ lit "](./" ++ date_label ++ lit ".html)" in
  let base' := if bool_decide (rel ∈ base) then base
               else take 2 base ++ rel :: drop 2 base in
  _ ← emit (WriteIndex base');
  mret fname.

Fixpoint post_threads (channel_id : str) (related_map : gmap str (list item))
    (top3 : counter) : io unit :=
  match top3 with
  | [] => mret ()
  | (k, _) :: rest =>
      let links := take 5 (default [] (related_map !! k)) in
      if bool_decide (links = []) then post_threads channel_id related_map rest
      else
        _ ← emit (PostThread channel_id k links);
        _ ← (if slack_thread_ok w k then mret ()
             else emit (Print (WarnThreadPostFailed k)));
        post_threads channel_id related_map rest
  end.

Definition post_to_slack (top_list : counter) (related_map : gmap str (list item)) : io unit :=
  match resolve_channel_id U (default [] (environ w "SLACK_CHANNEL_ID")) with
  | inl e => raise e
  | inr channel_id =>
      _ ← emit (PostParent channel_id top_list);
      if slack_parent_ok w
      then post_threads channel_id related_map (take 3 top_list)
      else raise (RuntimeError (lit "chat.postMessage failed: "
                                ++ default (lit "None") (slack_parent_error w)))
  end.

Definition main : io unit :=
  _ ← must_env "SLACK_BOT_TOKEN";
  _ ← must_env "SLACK_CHANNEL_ID";
  items ← collect;
  if bool_decide (items = []) then emit (Print NoItemsFetched)
  else
    let '(top_list, related_map) := analyze U TOP_K POST_LIMIT_PER_SOURCE items in
    if bool_decide (top_list = []) then emit (Print NoKeywordsExtracted)
    else
      _ ← save_markdown top_list related_map (today w);
      _ ← post_to_slack top_list related_map;
      emit (Print Done).

(** One run, from an empty trace. *)
Definition run_main : list event * result unit := main [].

(** What every source contributes, in the order of the declaration: the
    output of its parser, nothing when it failed. *)
Definition contributions : list (list item) :=
  ((λ s, default [] (html_items s)) <$> html_sources (sources_yaml w))
  ++ ((λ s, default [] (rss_items s)) <$> rss_sources (sources_yaml w)).
End run.

(** The effects that produce the digest. *)
Definition is_digest_effect (e : event) : bool :=
  match e with
  | MkdirDocs | WriteDigest _ _ _ | WriteIndex _ | PostParent _ _ | PostThread _ _ _ => true
  | Print _ | Sleep _ => false
  end.

(** A stretch of a run that produces no part of the digest. *)
Definition quiet (evs : list event) : Prop :=
  Forall (λ e, is_digest_effect e = false) evs.

(** ** Some worlds to run [main] in *)

Definition env_set (name : string) : option str :=
  if String.eqb name "SLACK_BOT_TOKEN" then Some (lit "xoxb-token")
  else if String.eqb name "SLACK_CHANNEL_ID" then Some (lit "C12345678 # main channel")
  else None.

(** One feed entry with a title and a link. *)
Definition entry (title link : string) : feed_entry :=
  FeedEntry (Some (lit title)) (Some (LinkTag (Some (lit link)) [])).

(** Every request fails. *)
Definition world_all_fail : world :=
  {| environ := env_set;
     sources_yaml := Sources [Source (lit "qiita_trend") (lit "https://qiita.com/")]
                             [Source (lit "hn") (lit "https://news.example/rss")];
     http_html := λ _, None;
     http_rss := λ _, None;
     today := lit "2025-01-06";
     index_md := None;
     slack_parent_ok := true;
     slack_parent_error := None;
     slack_thread_ok := λ _, true |}.

(** One feed, whose only title is made of stopwords. *)
Definition world_stopwords : world :=
  {| environ := env_set;
     sources_yaml := Sources [] [Source (lit "hn") (lit "https://news.example/rss")];
     http_html := λ _, None;
     http_rss := λ _, Some [entry "What is this" "https://news.example/1"];
     today := lit "2025-01-06";
     index_md := None;
     slack_parent_ok := true;
     slack_parent_error := None;
     slack_thread_ok := λ _, true |}.

(** Two feeds that carry the same entry. *)
Definition world_two_feeds : world :=
  {| environ := env_set;
     sources_yaml := Sources [] [Source (lit "feed_a") (lit "https://a.example/rss");
                                 Source (lit "feed_b") (lit "https://b.example/rss")];
     http_html := λ _, None;
     http_rss := λ _, Some [entry "Rust 2.0 released" "https://blog.example/rust-2"];
     today := lit "2025-01-06";
     index_md := None;
     slack_parent_ok := true;
     slack_parent_error := None;
     slack_thread_ok := λ _, true |}.

(** The scenario of the specification: two titles from a page, one from a
    feed. *)
Definition rust_items : list item :=
  [(lit "Qiita", lit "Rust is fast", lit "https://qiita.com/articles/1");
   (lit "Qiita", lit "Rust async guide", lit "https://qiita.com/articles/2");
   (lit "feed", lit "Learning Rust basics", lit "https://feed.example/3")].

(** ** Vocabulary of the further properties *)

(** The line of [docs/index.md] for one run: [rel] in [save_markdown]. *)
Definition index_entry (date_label : str) : str :=
  lit "- [" ++ date_label ++ lit "](./" ++ date_label ++ lit ".html)".

(** [if rel not in base: base.insert(2, rel)] *)
Definition index_insert (rel : str) (base : list str) : list str :=
  if bool_decide (rel ∈ base) then base else take 2 base ++ rel :: drop 2 base.

(** The lines [save_markdown] reads from [docs/index.md]. *)
Definition index_base (w : world) : list str := default [index_title; []] (index_md w).

(** The line boundaries of [str.splitlines]. *)
Definition is_linebreak (c : char) : bool :=
  bool_decide (c ∈ [10; 11; 12; 13; 28; 29; 30; 133; 8232; 8233]%N).

(** [s.splitlines()]: [cur] is the line being read, [after_cr] tells that
    the last character was a carriage return, whose line feed is part of
    the same boundary. *)
Fixpoint splitlines_from (after_cr : bool) (cur s : str) : list str :=
  match s with
  | [] => if bool_decide (cur = []) then [] else [cur]
  | c :: r =>
      if after_cr && (c =? 10)%N then splitlines_from false cur r
      else if is_linebreak c then cur :: splitlines_from (c =? 13)%N [] r
      else splitlines_from false (cur ++ [c]) r
  end.

Definition splitlines (s : str) : list str := splitlines_from false [] s.

(** ["\n".join(lines)] *)
Fixpoint join_lines (lines : list str) : str :=
  match lines with
  | [] => []
  | l :: rest =>
      match rest with
      | [] => l
      | _ :: _ => l ++ 10%N :: join_lines rest
      end
  end.

(** The lines without the last one when that one is empty. *)
Fixpoint drop_last_empty (lines : list str) : list str :=
  match lines with
  | [] => []
  | l :: rest =>
      match rest with
      | [] => if bool_decide (l = []) then [] else [l]
      | _ :: _ => l :: drop_last_empty rest
      end
  end.

(** The world after [docs/index.md] was written with [lines]: the next run
    reads [idx.read_text().splitlines()] of the text that was written,
    ["\n".join(lines)]. *)
Definition with_index (w : world) (lines : list str) : world :=
  {| environ := environ w; sources_yaml := sources_yaml w;
     http_html := http_html w; http_rss := http_rss w; today := today w;
     index_md := Some (splitlines (join_lines lines));
     slack_parent_ok := slack_parent_ok w;
     slack_parent_error := slack_parent_error w;
     slack_thread_ok := slack_thread_ok w |}.

(** The events of the threads of [post_to_slack]: for each of the keywords
    in turn, nothing when it has no link, else the post of its first five
    links, followed by a warning when that post is refused. *)
Definition thread_events (w : world) (channel_id : str)
    (related_map : gmap str (list item)) (top3 : counter) : list event :=
  concat ((λ kc : str * nat,
             let links := take 5 (default [] (related_map !! kc.1)) in
             if bool_decide (links = []) then []
             else PostThread channel_id kc.1 links
                    :: (if slack_thread_ok w kc.1 then []
                        else [Print (WarnThreadPostFailed kc.1)])) <$> top3).

(** The matches of [TOKEN_RE] in [text] from offset [lo] on, as a scan from
    left to right finds them: each span is a match at its start, no match
    starts between one span and the next, and none after the last. *)
Fixpoint token_scan (lo : nat) (text : str) (spans : list (nat * str)) : Prop :=
  match spans with
  | [] => ∀ q, lo ≤ q → TOKEN_RE None (drop q text) = None
  | (p, w) :: spans' =>
      lo ≤ p
      ∧ (∀ q, lo ≤ q < p → TOKEN_RE None (drop q text) = None)
      ∧ TOKEN_RE None (drop p text) = Some (length w)
      ∧ take (length w) (drop p text) = w
      ∧ token_scan (p + length w) text spans'
  end.

(** A match is kept as a token: its lowercased form is no stopword and it
    is not made of digits only. *)
Definition token_kept (U : unicode_db) (w : str) : Prop :=
  (str_lower U w ∉ STOPWORDS) ∧ forallb is_digit_09 w = false.

#[global] Instance token_kept_dec U w : Decision (token_kept U w).
Proof. unfold token_kept. apply _. Defined.

(** A world whose index ends with an empty line. *)
Definition world_old_index : world :=
  {| environ := env_set;
     sources_yaml := Sources [] [];
     http_html := λ _, None;
     http_rss := λ _, None;
     today := lit "2025-01-06";
     index_md := Some [lit "A"; []; lit "- [2024-12-30](./2024-12-30.html)"; []];
     slack_parent_ok := true;
     slack_parent_error := None;
     slack_thread_ok := λ _, true |}.

(** A world in which the parent message is accepted and every thread is
    refused. *)
Definition world_threads_refused : world :=
  {| environ := env_set;
     sources_yaml := Sources [] [Source (lit "feed_a") (lit "https://a.example/rss")];
     http_html := λ _, None;
     http_rss := λ _, Some [entry "Rust 2.0 released" "https://blog.example/rust-2"];
     today := lit "2025-01-06";
     index_md := None;
     slack_parent_ok := true;
     slack_parent_error := None;
     slack_thread_ok := λ _, false |}.

(** The sum of the counts of a table. *)
Definition total (c : counter) : nat := sum_list_with snd c.

Definition is_thread_post (e : event) : bool :=
  match e with PostThread _ _ _ => true | _ => false end.

Definition is_post (e : event) : bool :=
  match e with PostParent _ _ | PostThread _ _ _ => true | _ => false end.

(** Both required values of the environment are set and not empty. *)
Definition env_ready (w : world) : bool :=
  truthy (default [] (environ w "SLACK_BOT_TOKEN"))
  && truthy (default [] (environ w "SLACK_CHANNEL_ID")).

(** What [post_to_slack] may leave in the trace after the parent message:
    a thread for one of the keywords [keys], with the first five of its
    links, or the warning that such a thread could not be posted. *)
Definition thread_event_ok (w : world) (channel_id : str)
    (related_map : gmap str (list item)) (keys : list str) (e : event) : Prop :=
  match e with
  | PostThread c k links =>
      c = channel_id ∧ k ∈ keys
      ∧ links = take 5 (default [] (related_map !! k)) ∧ links ≠ []
  | Print (WarnThreadPostFailed k) => k ∈ keys ∧ slack_thread_ok w k = false
  | _ => False
  end.

(** The ranking and the evidence of a run: what [analyze] makes of the
    collected items. *)
Definition run_top (U : unicode_db) (TOP_K POST_LIMIT_PER_SOURCE : Z) (w : world) : counter :=
  (analyze U TOP_K POST_LIMIT_PER_SOURCE (concat (contributions U w))).1.

Definition run_related (U : unicode_db) (TOP_K POST_LIMIT_PER_SOURCE : Z) (w : world)
  : gmap str (list item) :=
  (analyze U TOP_K POST_LIMIT_PER_SOURCE (concat (contributions U w))).2.

(** The events of [save_markdown] in a run. *)
Definition digest_events (U : unicode_db) (TOP_K POST_LIMIT_PER_SOURCE : Z) (w : world)
  : list event :=
  [MkdirDocs;
   WriteDigest (lit "docs/" ++ today w ++ lit ".md")
     (run_top U TOP_K POST_LIMIT_PER_SOURCE w) (run_related U TOP_K POST_LIMIT_PER_SOURCE w);
   WriteIndex (index_insert (index_entry (today w)) (index_base w))].

(** What one source leaves in the trace of the fetch loops. *)
Definition html_mark (U : unicode_db) (w : world) (s : source) : event :=
  match html_items U w s with
  | Some _ => Sleep HtmlPause
  | None => Print (WarnHtmlFetchFailed (src_name s))
  end.

Definition rss_mark (U : unicode_db) (w : world) (s : source) : event :=
  match rss_items U w s with
  | Some _ => Sleep RssPause
  | None => Print (WarnRssFetchFailed (src_name s))
  end.

(** A world whose channel reference is a lone [#]. *)
Definition world_bad_channel : world :=
  {| environ := λ name, if String.eqb name "SLACK_CHANNEL_ID" then Some (lit "#")
                        else env_set name;
     sources_yaml := Sources [] [Source (lit "feed_a") (lit "https://a.example/rss")];
     http_html := λ _, None;
     http_rss := λ _, Some [entry "Rust 2.0 released" "https://blog.example/rust-2"];
     today := lit "2025-01-06";
     index_md := None;
     slack_parent_ok := true;
     slack_parent_error := None;
     slack_thread_ok := λ _, true |}.

(** A world in which the chat service refuses every message. *)
Definition world_slack_down : world :=
  {| environ := env_set;
     sources_yaml := Sources [] [Source (lit "feed_a") (lit "https://a.example/rss")];
     http_html := λ _, None;
     http_rss := λ _, Some [entry "Rust 2.0 released" "https://blog.example/rust-2"];
     today := lit "2025-01-06";
     index_md := None;
     slack_parent_ok := false;
     slack_parent_error := Some (lit "channel_not_found");
     slack_thread_ok := λ _, false |}.

(** A world without the token. *)
Definition world_no_token : world :=
  {| environ := λ name, if String.eqb name "SLACK_BOT_TOKEN" then None else env_set name;
     sources_yaml := Sources [] [Source (lit "feed_a") (lit "https://a.example/rss")];
     http_html := λ _, None;
     http_rss := λ _, Some [entry "Rust 2.0 released" "https://blog.example/rust-2"];
     today := lit "2025-01-06";
     index_md := None;
     slack_parent_ok := true;
     slack_parent_error := None;
     slack_thread_ok := λ _, true |}.

(** * Properties *)

(** ** [dedup] *)

Section dedup_facts.
Context (U : unicode_db).
Implicit Types (seen : gset (str * str)) (items out : list item) (k : str * str).

Lemma dedup_loop seen out items :
  (foldl (dedup_step U) (seen, out) items).2 = out ++ dedup_from U seen items.
Proof.
  revert seen out. induction items as [|it rest IH]; intros seen out; simpl.
  - by rewrite app_nil_r.
  - unfold dedup_step at 2. simpl. case_bool_decide.
    + apply IH.
    + rewrite IH. by rewrite <- app_assoc.
Qed.

Lemma dedup_unfold items : dedup U items = dedup_from U ∅ items.
Proof. unfold dedup. by rewrite dedup_loop. Qed.

Lemma dedup_from_sublist seen items : dedup_from U seen items `sublist_of` items.
Proof.
  revert seen. induction items as [|it rest IH]; intros seen; simpl.
  - constructor.
  - case_bool_decide.
    + by apply sublist_cons.
    + by apply sublist_skip.
Qed.

Lemma dedup_from_fresh seen items it :
  it ∈ dedup_from U seen items → dedup_key U it ∉ seen.
Proof.
  revert seen. induction items as [|x rest IH]; intros seen; simpl.
  - by intros ?%elem_of_nil.
  - case_bool_decide as Hx.
    + apply IH.
    + intros [->|Hin]%elem_of_cons; [done|].
      apply IH in Hin. set_solver.
Qed.

Lemma dedup_from_NoDup seen items : NoDup (dedup_key U <$> dedup_from U seen items).
Proof.
  revert seen. induction items as [|x rest IH]; intros seen; simpl.
  - constructor.
  - case_bool_decide as Hx; [apply IH|].
    rewrite fmap_cons. constructor; [|apply IH].
    intros Hin. apply list_elem_of_fmap in Hin as (y & Hy & Hin).
    apply dedup_from_fresh in Hin. rewrite <- Hy in Hin.
    by apply Hin, elem_of_union_l, elem_of_singleton.
Qed.

(** The items with key [k] that the loop emits: the first one of the
    input, unless [k] was seen before. *)
Lemma dedup_from_filter seen items k :
  filter (λ x, dedup_key U x = k) (dedup_from U seen items)
  = if bool_decide (k ∈ seen) then []
    else take 1 (filter (λ x, dedup_key U x = k) items).
Proof.
  revert seen. induction items as [|x rest IH]; intros seen; simpl.
  - by case_bool_decide.
  - destruct (decide (dedup_key U x = k)) as [Hk|Hk];
      destruct (decide (dedup_key U x ∈ seen)) as [Hx|Hx].
    + rewrite (bool_decide_eq_true_2 _ Hx), IH. subst k.
      by rewrite (bool_decide_eq_true_2 _ Hx).
    + rewrite (bool_decide_eq_false_2 _ Hx). subst k.
      rewrite (bool_decide_eq_false_2 _ Hx).
      rewrite !filter_cons_True by done. simpl. f_equal.
      rewrite IH. rewrite bool_decide_eq_true_2; [done|].
      by apply elem_of_union_l, elem_of_singleton.
    + rewrite (bool_decide_eq_true_2 _ Hx), IH.
      by rewrite (filter_cons_False _ x rest).
    + rewrite (bool_decide_eq_false_2 _ Hx).
      rewrite !filter_cons_False by done. rewrite IH.
      rewrite (bool_decide_ext (k ∈ {[dedup_key U x]} ∪ seen) (k ∈ seen)); [done|].
      rewrite elem_of_union, elem_of_singleton. split; [|tauto].
      intros [->|?]; [by destruct Hk | done].
Qed.

(** A sequence without repeated keys, none of them seen, passes unchanged. *)
Lemma dedup_from_id seen items :
  NoDup (dedup_key U <$> items) →
  (∀ it, it ∈ items → dedup_key U it ∉ seen) →
  dedup_from U seen items = items.
Proof.
  revert seen. induction items as [|x rest IH]; intros seen Hnd Hfresh; simpl; [done|].
  rewrite fmap_cons in Hnd. apply NoDup_cons in Hnd as [Hx Hnd].
  rewrite bool_decide_eq_false_2 by (apply Hfresh; left).
  f_equal. apply IH; [done|].
  intros it Hin. specialize (Hfresh it ltac:(by right)).
  assert (dedup_key U it ≠ dedup_key U x).
  { intros Heq. apply Hx. rewrite <- Heq. by apply list_elem_of_fmap_2. }
  rewrite elem_of_union, elem_of_singleton. tauto.
Qed.
End dedup_facts.

(** C5. The output of [dedup] is a subsequence of its input in the
    original order, no two of its items have the same key
    [(lowercased title, link)], and for every key the output holds exactly
    the first item of the input that bears it. *)
Theorem dedup_keeps_first_occurrences (U : unicode_db) (items : list item) :
  dedup U items `sublist_of` items
  ∧ NoDup (dedup_key U <$> dedup U items)
  ∧ ∀ k : str * str,
      filter (λ x, dedup_key U x = k) (dedup U items)
      = take 1 (filter (λ x, dedup_key U x = k) items).
Proof.
  rewrite dedup_unfold. split_and!.
  - apply dedup_from_sublist.
  - apply dedup_from_NoDup.
  - intros k. rewrite dedup_from_filter.
    by rewrite bool_decide_eq_false_2 by apply not_elem_of_empty.
Qed.

(** C9. [dedup] is idempotent. *)
Theorem dedup_idempotent (U : unicode_db) (items : list item) :
  dedup U (dedup U items) = dedup U items.
Proof.
  rewrite (dedup_unfold U (dedup U items)).
  apply dedup_from_id.
  - rewrite dedup_unfold. apply dedup_from_NoDup.
  - intros it _. apply not_elem_of_empty.
Qed.

Example dedup_drops_later_duplicates :
  dedup ascii_db [(lit "a", lit "Rust", lit "u"); (lit "b", lit "RUST", lit "u");
                  (lit "a", lit "Rust", lit "v"); (lit "a", lit "Rust", lit "u")]
  = [(lit "a", lit "Rust", lit "u"); (lit "a", lit "Rust", lit "v")].
Proof. vm_compute. reflexivity. Qed.

(** ** The token extractor *)

Section regex_facts.
Implicit Types (m : matcher) (s text : str) (p : char → bool).

Lemma greedy_le p s : greedy p s ≤ length s.
Proof. induction s as [|c r IH]; simpl; [lia|]. destruct (p c); simpl; lia. Qed.

Lemma greedy_Forall p s : Forall (λ c, p c = true) (take (greedy p s) s).
Proof.
  induction s as [|c r IH]; simpl; [constructor|].
  destruct (p c) eqn:Hc; simpl; [by constructor | constructor].
Qed.

Lemma take_length_take {A} n (l : list A) : take (length (take n l)) l = take n l.
Proof.
  rewrite length_take. destruct (decide (n ≤ length l)).
  - by replace (n `min` length l) with n by lia.
  - replace (n `min` length l) with (length l) by lia.
    rewrite firstn_all. symmetry. apply take_ge. lia.
Qed.

Lemma spans_from_mono lo lo' text spans :
  lo' ≤ lo → spans_from lo text spans → spans_from lo' text spans.
Proof. destruct spans as [|[q w] l]; simpl; [done|]. intros ? (?&?&?). split_and!; [lia|done..]. Qed.

Lemma spans_from_filter (P : nat * str → Prop) `{∀ x, Decision (P x)} lo text spans :
  spans_from lo text spans → spans_from lo text (filter P spans).
Proof.
  revert lo. induction spans as [|[q w] l IH]; intros lo; simpl; [done|].
  intros (Hlo & Hw & Hl). destruct (decide (P (q, w))).
  - rewrite filter_cons_True by done. simpl. auto.
  - rewrite filter_cons_False by done. apply IH.
    eapply spans_from_mono; [|done]. lia.
Qed.

Lemma finditer_from_spans m pre s skip prev :
  spans_from (length pre + skip) (pre ++ s) (finditer_from m skip (length pre) prev s).
Proof.
  revert pre skip prev. induction s as [|c rest IH]; intros pre skip prev; simpl; [done|].
  assert (Hnext : ∀ k prev',
    spans_from (length pre + S k) (pre ++ c :: rest)
               (finditer_from m k (S (length pre)) prev' rest)).
  { intros k prev'. specialize (IH (pre ++ [c]) k prev').
    rewrite length_app, <- app_assoc in IH. simpl in IH.
    by replace (length pre + 1) with (S (length pre)) in IH by lia;
       replace (S (length pre) + k) with (length pre + S k) in IH by lia. }
  destruct skip as [|k]; [|apply Hnext].
  destruct (m prev (c :: rest)) as [n|] eqn:Hm.
  - simpl. split_and!; [lia| |].
    + rewrite drop_app_length. apply take_length_take.
    + eapply spans_from_mono; [|apply Hnext]. rewrite length_take. simpl. lia.
  - eapply spans_from_mono; [|apply Hnext]. lia.
Qed.

Lemma finditer_spans m text : spans_from 0 text (finditer m text).
Proof. apply (finditer_from_spans m [] text 0 None). Qed.

(** Every match of [finditer] is a match of the pattern. *)
Lemma finditer_from_match m skip pos prev s :
  Forall (λ pw, ∃ prev' s' n, m prev' s' = Some n ∧ pw.2 = take n s')
         (finditer_from m skip pos prev s).
Proof.
  revert skip pos prev. induction s as [|c rest IH]; intros skip pos prev; simpl.
  - constructor.
  - destruct skip; [|apply IH].
    destruct (m prev (c :: rest)) as [n|] eqn:Hm; [|apply IH].
    constructor; [|apply IH]. eauto.
Qed.

Lemma TOKEN_RE_match prev s n :
  TOKEN_RE prev s = Some n →
  2 ≤ n ≤ 31 ∧ n ≤ length s ∧ Forall (λ c, tok_cont c = true) (take n s).
Proof.
  unfold TOKEN_RE. destruct s as [|c rest]; [done|].
  destruct (tok_start c) eqn:Hc; [|done].
  pose proof (greedy_le tok_cont (take 30 rest)) as Hle.
  pose proof (greedy_Forall tok_cont (take 30 rest)) as Hall.
  rewrite length_take in Hle. rewrite take_take in Hall.
  set (g := greedy tok_cont (take 30 rest)) in *.
  replace (g `min` 30) with g in Hall by lia.
  destruct (Nat.leb_spec 1 g) as [Hg|Hg]; [|done].
  intros [= <-]. cbn [length take]. split_and!; try lia.
  constructor; [|done]. unfold tok_cont. by rewrite Hc.
Qed.
End regex_facts.

Section extract_tokens_facts.
Context (U : unicode_db).
Implicit Types (w text : str).

Lemma is_digit_ascii c : is_digit_09 c = true → is_ascii c = true.
Proof.
  unfold is_digit_09, in_range, is_ascii.
  rewrite andb_true_iff, !N.leb_le, N.ltb_lt. lia.
Qed.

Lemma is_digit_lower c : is_digit_09 c = true → ascii_lower c = c.
Proof.
  unfold ascii_lower, is_digit_09, is_upper_AZ, in_range.
  rewrite andb_true_iff, !N.leb_le. intros [? ?].
  destruct (65 <=? c)%N eqn:E; [|done]. apply N.leb_le in E. lia.
Qed.

Lemma forallb_Forall {A} (p : A → bool) (l : list A) :
  forallb p l = true ↔ Forall (λ x, p x = true) l.
Proof.
  induction l as [|x l IH]; simpl.
  - split; [constructor | done].
  - rewrite andb_true_iff, Forall_cons. tauto.
Qed.

(** [str.isdigit] holds of the lowercased form of a string of digits. *)
Lemma str_isdigit_lower_digits w :
  w ≠ [] → forallb is_digit_09 w = true → str_isdigit U (str_lower U w) = true.
Proof.
  intros Hne Hd.
  assert (Hascii : forallb is_ascii w = true).
  { apply forallb_Forall. apply forallb_Forall in Hd.
    eapply Forall_impl; [exact Hd|]. apply is_digit_ascii. }
  assert (Hlow : str_lower U w = w).
  { unfold str_lower. rewrite Hascii. rewrite <- (list_fmap_id w) at 2.
    apply Forall_fmap_ext_1. apply forallb_Forall in Hd.
    eapply Forall_impl; [exact Hd|]. apply is_digit_lower. }
  rewrite Hlow. unfold str_isdigit. rewrite Hascii.
  rewrite bool_decide_eq_false_2 by done. done.
Qed.

Lemma extract_tokens_loop (acc : list str) (ms : list (nat * str)) :
  foldl (λ tokens m, if token_rejected U m.2 then tokens else tokens ++ [m.2]) acc ms
  = acc ++ (filter (λ m, token_rejected U m.2 = false) ms).*2.
Proof.
  revert acc. induction ms as [|m ms IH]; intros acc; simpl.
  - by rewrite app_nil_r.
  - destruct (token_rejected U m.2) eqn:Hm.
    + rewrite filter_cons_False by congruence. apply IH.
    + rewrite filter_cons_True by done. rewrite IH, fmap_cons, <- app_assoc. done.
Qed.

(** The tokens are the matches of [TOKEN_RE] that pass the filter. *)
Lemma extract_tokens_filter text :
  extract_tokens U text
  = (filter (λ m, token_rejected U m.2 = false) (finditer TOKEN_RE text)).*2.
Proof. unfold extract_tokens. by rewrite extract_tokens_loop. Qed.

Lemma extract_tokens_accepted text w :
  w ∈ extract_tokens U text →
  token_rejected U w = false ∧ ∃ prev s n, TOKEN_RE prev s = Some n ∧ w = take n s.
Proof.
  rewrite extract_tokens_filter. intros Hin.
  apply list_elem_of_fmap in Hin as (m & -> & Hin).
  apply list_elem_of_filter in Hin as [Hm Hin]. split; [done|].
  pose proof (finditer_from_match TOKEN_RE 0 0 None text) as Hall.
  rewrite Forall_forall in Hall. by apply Hall.
Qed.
End extract_tokens_facts.

Section scan_facts.
Context (U : unicode_db).
Implicit Types (w text s pre : str) (spans : list (nat * str)).

Lemma token_scan_extend lo text spans :
  TOKEN_RE None (drop lo text) = None →
  token_scan (S lo) text spans → token_scan lo text spans.
Proof.
  intros Hlo. destruct spans as [|[p w] l]; simpl.
  - intros Hrest q Hq. destruct (decide (q = lo)) as [->|]; [done|]. apply Hrest. lia.
  - intros (Hp & Hgap & Hm & Hw & Hl). split_and!; [lia| |done..].
    intros q Hq. destruct (decide (q = lo)) as [->|]; [done|]. apply Hgap. lia.
Qed.

(** [finditer] finds the matches of [TOKEN_RE] as a scan does. *)
Lemma finditer_from_scan pre s skip prev :
  token_scan (length pre + skip) (pre ++ s)
             (finditer_from TOKEN_RE skip (length pre) prev s).
Proof.
  revert pre skip prev. induction s as [|c rest IH]; intros pre skip prev.
  - simpl. intros q Hq. rewrite drop_ge; [done|]. rewrite app_nil_r. lia.
  - assert (Hnext : ∀ k prev',
      token_scan (length pre + S k) (pre ++ c :: rest)
                 (finditer_from TOKEN_RE k (S (length pre)) prev' rest)).
    { intros k prev'. specialize (IH (pre ++ [c]) k prev').
      rewrite length_app, <- app_assoc in IH. simpl in IH.
      by replace (length pre + 1) with (S (length pre)) in IH by lia;
         replace (S (length pre) + k) with (length pre + S k) in IH by lia. }
    cbn [finditer_from]. destruct skip as [|k]; [|apply Hnext].
    rewrite Nat.add_0_r.
    destruct (TOKEN_RE prev (c :: rest)) as [n|] eqn:Hm.
    + pose proof (TOKEN_RE_match _ _ _ Hm) as (Hn & Hlen & _).
      assert (Hl : length (take n (c :: rest)) = n) by (rewrite length_take; lia).
      cbn [token_scan]. rewrite drop_app_length, Hl.
      split_and!; [lia | intros q ?; lia | done | done |].
      specialize (Hnext (pred n) (Some c)).
      by replace (length pre + S (pred n)) with (length pre + n) in Hnext by lia.
    + apply token_scan_extend; [by rewrite drop_app_length|].
      specialize (Hnext 0 (Some c)).
      by replace (length pre + 1) with (S (length pre)) in Hnext by lia.
Qed.

Lemma finditer_scan text : token_scan 0 text (finditer TOKEN_RE text).
Proof. apply (finditer_from_scan [] text 0 None). Qed.

(** A text has one scan only. *)
Lemma token_scan_unique lo text spans1 spans2 :
  token_scan lo text spans1 → token_scan lo text spans2 → spans1 = spans2.
Proof.
  revert lo spans2. induction spans1 as [|[p1 w1] l1 IH]; intros lo [|[p2 w2] l2]; simpl.
  - done.
  - intros Hnone (Hp & _ & Hm & _). by rewrite Hnone in Hm.
  - intros (Hp & _ & Hm & _) Hnone. by rewrite Hnone in Hm.
  - intros (Hp1 & Hgap1 & Hm1 & Hw1 & Hl1) (Hp2 & Hgap2 & Hm2 & Hw2 & Hl2).
    assert (p1 = p2) as <-.
    { destruct (Nat.lt_trichotomy p1 p2) as [Hlt|[?|Hlt]]; [|done|].
      - rewrite Hgap2 in Hm1 by lia. done.
      - rewrite Hgap1 in Hm2 by lia. done. }
    rewrite Hm1 in Hm2. injection Hm2 as Hlen.
    assert (w1 = w2) as <- by (by rewrite <- Hw1, <- Hw2, Hlen).
    f_equal. by eapply IH.
Qed.

Lemma is_digit_ascii_lower c : is_digit_09 (ascii_lower c) = is_digit_09 c.
Proof.
  unfold ascii_lower, is_upper_AZ, is_digit_09, in_range.
  destruct (65 <=? c)%N eqn:E1; [|done]. destruct (c <=? 90)%N eqn:E2; [|done].
  apply N.leb_le in E1, E2. cbn [andb].
  transitivity false.
  - apply andb_false_iff. right. apply N.leb_gt. lia.
  - symmetry. apply andb_false_iff. right. apply N.leb_gt. lia.
Qed.

(** On the matches of [TOKEN_RE], the filter of [extract_tokens] keeps
    what [token_kept] says. *)
Lemma token_rejected_kept prev s n :
  TOKEN_RE prev s = Some n →
  token_rejected U (take n s) = false ↔ token_kept U (take n s).
Proof.
  intros Hm. pose proof (TOKEN_RE_match _ _ _ Hm) as (Hn & Hlen & Hall).
  set (w := take n s) in *.
  assert (Hl : length w = n) by (unfold w; rewrite length_take; lia).
  assert (Hascii : forallb is_ascii w = true).
  { apply forallb_Forall. eapply Forall_impl; [exact Hall|]. simpl. intros c Hc.
    unfold tok_cont, tok_start, is_upper_AZ, is_lower_az, is_digit_09, in_range in Hc.
    unfold is_ascii. apply N.ltb_lt.
    rewrite !orb_true_iff, !andb_true_iff, !N.leb_le, !N.eqb_eq in Hc. lia. }
  assert (Hlow : str_lower U w = ascii_lower <$> w).
  { unfold str_lower. by rewrite Hascii. }
  assert (Hdig : str_isdigit U (str_lower U w) = forallb is_digit_09 w).
  { rewrite Hlow. unfold str_isdigit.
    replace (forallb is_ascii (ascii_lower <$> w)) with true.
    - rewrite bool_decide_eq_false_2 by (destruct w; [simpl in Hl; lia | done]).
      cbn [negb andb]. clear. induction w as [|c w IH]; [done|].
      rewrite fmap_cons. cbn [forallb]. by rewrite is_digit_ascii_lower, IH.
    - symmetry. apply forallb_Forall, Forall_fmap.
      apply forallb_Forall in Hascii. eapply Forall_impl; [exact Hascii|].
      simpl. intros c Hc. unfold ascii_lower, is_upper_AZ, in_range, is_ascii in *.
      apply N.ltb_lt in Hc. destruct (65 <=? c)%N eqn:E1; [|by apply N.ltb_lt].
      destruct (c <=? 90)%N eqn:E2; [|by apply N.ltb_lt].
      apply N.leb_le in E2. cbn [andb]. apply N.ltb_lt. lia. }
  unfold token_rejected, token_kept. cbv zeta. rewrite Hdig.
  replace (length w <=? 1) with false by (symmetry; apply Nat.leb_gt; lia).
  rewrite orb_false_r, orb_false_iff, bool_decide_eq_false. done.
Qed.

Lemma finditer_from_kept skip pos prev s :
  filter (λ m, token_rejected U m.2 = false) (finditer_from TOKEN_RE skip pos prev s)
  = filter (λ m, token_kept U m.2) (finditer_from TOKEN_RE skip pos prev s).
Proof.
  pose proof (finditer_from_match TOKEN_RE skip pos prev s) as Hall.
  induction Hall as [|m l (prev' & s' & n & Hm & Hw) _ IH]; [done|].
  pose proof (token_rejected_kept _ _ _ Hm) as Hk. rewrite <- Hw in Hk.
  destruct (decide (token_kept U m.2)) as [Hy|Hn].
  - rewrite (filter_cons_True (λ m, token_kept U m.2)) by done.
    rewrite filter_cons_True by (by apply Hk). by f_equal.
  - rewrite (filter_cons_False (λ m, token_kept U m.2)) by done.
    rewrite filter_cons_False by (by rewrite Hk). done.
Qed.
End scan_facts.

(** C3. Every token that [extract_tokens] emits has between 2 and 31
    characters, its lowercased form is no stopword and it is not made of
    digits only; the tokens are emitted left to right, in the order in
    which they occur in the text, repetitions included: they are the
    matches that the scan of the text finds and that pass the filter, one
    token for each of them. *)
Theorem extract_tokens_filtered_in_order (U : unicode_db) (text : str) :
  Forall (λ w, (2 ≤ length w ≤ 31)
               ∧ (str_lower U w ∉ STOPWORDS)
               ∧ forallb is_digit_09 w = false)
         (extract_tokens U text)
  ∧ (∃ spans : list (nat * str),
       extract_tokens U text = spans.*2 ∧ spans_from 0 text spans)
  ∧ ∃ matches : list (nat * str),
      token_scan 0 text matches
      ∧ (∀ matches', token_scan 0 text matches' → matches' = matches)
      ∧ extract_tokens U text = (filter (λ m, token_kept U m.2) matches).*2.
Proof.
  split_and!.
  - apply Forall_forall. intros w Hin.
    apply extract_tokens_accepted in Hin as (Hrej & prev & s & n & Hm & ->).
    apply TOKEN_RE_match in Hm as (Hn & Hlen & _).
    assert (Hl : length (take n s) = n) by (rewrite length_take; lia).
    unfold token_rejected in Hrej.
    apply orb_false_iff in Hrej as [Hrej _]. apply orb_false_iff in Hrej as [Hstop Hdig].
    split_and!; try lia.
    + by apply bool_decide_eq_false in Hstop.
    + destruct (forallb is_digit_09 (take n s)) eqn:Hd; [|done].
      rewrite str_isdigit_lower_digits in Hdig; [done| |done].
      intros Hnil. rewrite Hnil in Hl. simpl in Hl. lia.
  - exists (filter (λ m, token_rejected U m.2 = false) (finditer TOKEN_RE text)).
    split; [apply extract_tokens_filter|].
    apply spans_from_filter, finditer_spans.
  - exists (finditer TOKEN_RE text). split_and!.
    + apply finditer_scan.
    + intros matches' Hscan. eapply token_scan_unique; [exact Hscan | apply finditer_scan].
    + rewrite extract_tokens_filter. unfold finditer. by rewrite finditer_from_kept.
Qed.

(** Repeated tokens are emitted as often as they occur. *)
Example extract_tokens_keeps_repetitions :
  extract_tokens ascii_db (lit "Go Go Rust Go") = [lit "Go"; lit "Go"; lit "Rust"; lit "Go"].
Proof. vm_compute. reflexivity. Qed.

Example extract_tokens_run :
  extract_tokens ascii_db (lit "The Rust 2024 is C++ and x a-b.c#d node.js 99x ab")
  = [lit "Rust"; lit "C++"; lit "a-b.c#d"; lit "node.js"; lit "99x"; lit "ab"].
Proof. vm_compute. reflexivity. Qed.

(** ** The token-count table *)

Section counter_facts.
Implicit Types (c : counter) (t k : str) (ts : list str).

Lemma occurrences_cons t x ts :
  occurrences t (x :: ts) = if bool_decide (x = t) then S (occurrences t ts) else occurrences t ts.
Proof.
  unfold occurrences. case_bool_decide.
  - by rewrite filter_cons_True.
  - by rewrite filter_cons_False.
Qed.

Lemma counter_incr_new t c : t ∉ c.*1 → counter_incr t c = c ++ [(t, 1)].
Proof.
  induction c as [|[k n] c IH]; simpl; [done|].
  rewrite not_elem_of_cons. intros [Hne Hnin].
  rewrite bool_decide_eq_false_2 by done. by rewrite IH.
Qed.

Lemma counter_incr_old t c :
  t ∈ c.*1 → NoDup c.*1 →
  counter_incr t c = (λ kn, if bool_decide (kn.1 = t) then (kn.1, S kn.2) else kn) <$> c.
Proof.
  induction c as [|[k n] c IH]; simpl; [by intros ?%elem_of_nil|].
  intros Hin [Hk Hnd]%NoDup_cons. case_bool_decide as Hkt; simpl.
  - subst k. f_equal. rewrite <- (list_fmap_id c) at 1.
    apply list_fmap_ext. intros i [k' n'] Hi. simpl.
    rewrite bool_decide_eq_false_2; [done|]. intros ->. apply Hk.
    apply list_elem_of_fmap. exists (t, n'). split; [done|].
    by eapply list_elem_of_lookup_2.
  - f_equal. apply IH; [|done]. apply elem_of_cons in Hin as [?|?]; [congruence|done].
Qed.

Lemma first_occurrences_elem t ts : t ∈ first_occurrences ts ↔ t ∈ ts.
Proof.
  induction ts as [|x r IH]; simpl; [done|].
  rewrite !elem_of_cons, list_elem_of_filter, IH.
  destruct (decide (t = x)); tauto.
Qed.

Lemma first_occurrences_NoDup ts : NoDup (first_occurrences ts).
Proof.
  induction ts as [|x r IH]; simpl; constructor.
  - rewrite list_elem_of_filter. by intros [? _].
  - by apply NoDup_filter.
Qed.

Lemma filter_filter_ne t (keys : list str) ts :
  t ∈ keys →
  filter (λ x, x ∉ keys) (filter (λ x, x ≠ t) ts) = filter (λ x, x ∉ keys) ts.
Proof.
  intros Ht. induction ts as [|x r IH]; [done|].
  destruct (decide (x = t)) as [->|Hx].
  - rewrite (filter_cons_False (λ x, x ≠ t)) by (intros ?; done).
    by rewrite (filter_cons_False (λ x, x ∉ keys)) by (intros ?; done).
  - rewrite (filter_cons_True (λ x, x ≠ t)) by done.
    destruct (decide (x ∈ keys)).
    + by rewrite !(filter_cons_False (λ x, x ∉ keys)) by (intros ?; done).
    + rewrite !(filter_cons_True (λ x, x ∉ keys)) by done. by f_equal.
Qed.

Lemma filter_notin_snoc t (keys : list str) ts :
  filter (λ x, x ∉ keys ++ [t]) ts = filter (λ x, x ∉ keys) (filter (λ x, x ≠ t) ts).
Proof.
  induction ts as [|x r IH]; [done|].
  destruct (decide (x = t)) as [->|Hx].
  - rewrite (filter_cons_False (λ x, x ≠ t)) by (intros ?; done).
    rewrite filter_cons_False; [done|].
    intros Hn. apply Hn, elem_of_app. right. by left.
  - rewrite (filter_cons_True (λ x, x ≠ t)) by done.
    destruct (decide (x ∈ keys)) as [Hk|Hk].
    + rewrite (filter_cons_False (λ x, x ∉ keys)) by (intros ?; done).
      rewrite filter_cons_False; [done|].
      intros Hn. apply Hn, elem_of_app. by left.
    + rewrite (filter_cons_True (λ x, x ∉ keys)) by done.
      rewrite filter_cons_True; [by f_equal|].
      rewrite elem_of_app, list_elem_of_singleton. tauto.
Qed.

(** What counting the tokens [ts] does to a table [c] with distinct
    keys: the entries of [c] keep their place and grow, the new tokens
    follow in the order of their first occurrence. *)
Lemma counter_loop c ts :
  NoDup c.*1 →
  foldl (λ c t, counter_incr t c) c ts
  = ((λ kn, (kn.1, kn.2 + occurrences kn.1 ts)) <$> c)
    ++ ((λ t, (t, occurrences t ts)) <$> filter (λ x, x ∉ c.*1) (first_occurrences ts)).
Proof.
  revert c. induction ts as [|t r IH]; intros c Hnd.
  - simpl. rewrite app_nil_r. rewrite <- (list_fmap_id c) at 1.
    apply list_fmap_ext. intros i [k n] _. simpl. f_equal.
    unfold occurrences. simpl. lia.
  - cbn [foldl first_occurrences]. destruct (decide (t ∈ c.*1)) as [Hin|Hnin].
    + rewrite counter_incr_old by done.
      set (f := λ kn : str * nat, if bool_decide (kn.1 = t) then (kn.1, S kn.2) else kn).
      assert (Hkeys : (f <$> c).*1 = c.*1).
      { rewrite <- list_fmap_compose. apply list_fmap_ext.
        intros i [k n] _. unfold f. simpl. by case_bool_decide. }
      rewrite IH by (by rewrite Hkeys). rewrite Hkeys.
      rewrite filter_cons_False by (intros Hn; done).
      rewrite filter_filter_ne by done. f_equal.
      * rewrite <- list_fmap_compose. apply list_fmap_ext.
        intros i [k n] _. unfold f. simpl. rewrite occurrences_cons.
        destruct (decide (k = t)) as [->|Hk].
        -- rewrite !bool_decide_eq_true_2 by done. simpl. f_equal. lia.
        -- rewrite bool_decide_eq_false_2 by done.
           by rewrite bool_decide_eq_false_2 by congruence.
      * apply list_fmap_ext. intros i x Hi. f_equal.
        rewrite occurrences_cons. rewrite bool_decide_eq_false_2; [done|].
        intros <-. apply list_elem_of_lookup_2, list_elem_of_filter in Hi as [Hi _]. done.
    + rewrite counter_incr_new by done.
      assert (Hnd' : NoDup (c ++ [(t, 1)]).*1).
      { rewrite fmap_app. apply NoDup_app. split_and!; [done| |apply NoDup_singleton].
        intros x Hx ->%list_elem_of_singleton. done. }
      rewrite IH by done. rewrite !fmap_app. simpl.
      rewrite filter_cons_True by done. rewrite fmap_cons.
      rewrite filter_notin_snoc. rewrite <- app_assoc. simpl.
      rewrite (occurrences_cons t t), bool_decide_eq_true_2 by done. f_equal.
      * apply list_fmap_ext. intros i [k n] Hi. simpl. f_equal.
        rewrite occurrences_cons. rewrite bool_decide_eq_false_2; [done|].
        intros ->. apply Hnin. apply list_elem_of_fmap. exists (k, n).
        split; [done|]. by eapply list_elem_of_lookup_2.
      * f_equal. apply list_fmap_ext. intros i x Hi. f_equal.
        rewrite occurrences_cons. rewrite bool_decide_eq_false_2; [done|].
        intros <-. apply list_elem_of_lookup_2, list_elem_of_filter in Hi as [_ Hi].
        apply list_elem_of_filter in Hi as [Hi _]. done.
Qed.
End counter_facts.

Section ranking_facts.
Context (U : unicode_db).
Implicit Types (c l : counter) (x y : str * nat) (ts : list str).

Lemma filter_all {A} (P : A → Prop) `{∀ a, Decision (P a)} (l : list A) :
  Forall P l → filter P l = l.
Proof.
  induction 1 as [|a l Ha _ IH]; [done|]. by rewrite filter_cons_True, IH.
Qed.

Lemma count_tokens_loop c (items : list item) :
  foldl (λ c it, foldl (λ c t, counter_incr t c) c (extract_tokens U (item_title it)))
        c items
  = foldl (λ c t, counter_incr t c) c (token_stream U items).
Proof.
  revert c. induction items as [|it rest IH]; intros c; [done|].
  unfold token_stream. rewrite fmap_cons. cbn [concat foldl].
  rewrite foldl_app. apply IH.
Qed.

(** The first loop of [analyze] builds the token-count table. *)
Lemma count_tokens_table (items : list item) :
  count_tokens U items = token_table (token_stream U items).
Proof.
  unfold count_tokens. rewrite count_tokens_loop, counter_loop by constructor.
  simpl. unfold token_table. f_equal.
  apply filter_all, Forall_forall. intros x _. apply not_elem_of_nil.
Qed.

Lemma token_table_keys ts : (token_table ts).*1 = first_occurrences ts.
Proof.
  unfold token_table. rewrite <- list_fmap_compose.
  rewrite <- (list_fmap_id (first_occurrences ts)) at 2. by apply list_fmap_ext.
Qed.

Lemma token_table_count ts x : x ∈ token_table ts → x.2 = occurrences x.1 ts.
Proof. unfold token_table. by intros (t & -> & _)%list_elem_of_fmap. Qed.

(** *** The stable sort *)

Lemma insert_desc_perm x l : insert_desc x l ≡ₚ x :: l.
Proof.
  induction l as [|y l IH]; simpl; [done|].
  destruct (x.2 <? y.2); [|done]. rewrite IH. apply Permutation_swap.
Qed.

Lemma sorted_desc_perm l : sorted_desc l ≡ₚ l.
Proof.
  induction l as [|x l IH]; simpl; [done|].
  unfold sorted_desc in *. simpl. by rewrite insert_desc_perm, IH.
Qed.

Lemma insert_desc_sorted x l :
  StronglySorted (λ a b, b.2 ≤ a.2) l → StronglySorted (λ a b, b.2 ≤ a.2) (insert_desc x l).
Proof.
  induction l as [|y l IH]; simpl; intros Hs.
  - repeat constructor.
  - apply StronglySorted_inv in Hs as [Hl Hy].
    destruct (Nat.ltb_spec x.2 y.2) as [Hlt|Hge].
    + constructor; [by apply IH|].
      rewrite insert_desc_perm. constructor; [lia|done].
    + constructor; [by constructor|].
      constructor; [done|]. eapply Forall_impl; [exact Hy|]. simpl. lia.
Qed.

Lemma sorted_desc_sorted l : StronglySorted (λ a b, b.2 ≤ a.2) (sorted_desc l).
Proof.
  induction l as [|x l IH]; unfold sorted_desc in *; simpl; [constructor|].
  by apply insert_desc_sorted.
Qed.

(** Stability: [insert_desc] only passes entries with a larger count, so
    the entries of one count keep the order of the table. *)
Lemma insert_desc_class (n : nat) x l :
  filter (λ a, a.2 = n) (insert_desc x l) = filter (λ a, a.2 = n) (x :: l).
Proof.
  induction l as [|y l IH]; simpl; [done|].
  destruct (Nat.ltb_spec x.2 y.2) as [Hlt|Hge]; [|done].
  destruct (decide (y.2 = n)) as [Hy|Hy].
  - rewrite (filter_cons_True _ y), (filter_cons_False _ x), (filter_cons_True _ y)
      by (done || lia).
    f_equal. etrans; [exact IH|]. by rewrite filter_cons_False by lia.
  - rewrite (filter_cons_False _ y) by done. etrans; [exact IH|].
    destruct (decide (x.2 = n)).
    + rewrite !(filter_cons_True _ x) by done. by rewrite filter_cons_False.
    + rewrite !(filter_cons_False _ x) by done. by rewrite filter_cons_False.
Qed.

Lemma sorted_desc_class (n : nat) l :
  filter (λ a, a.2 = n) (sorted_desc l) = filter (λ a, a.2 = n) l.
Proof.
  induction l as [|x l IH]; [done|].
  unfold sorted_desc in *. simpl. etrans; [apply insert_desc_class|].
  destruct (decide (x.2 = n)).
  - rewrite !(filter_cons_True _ x) by done. f_equal. exact IH.
  - rewrite !(filter_cons_False _ x) by done. exact IH.
Qed.
End ranking_facts.

Section order_facts.
Context {A : Type}.
Implicit Types (x y a : A) (l : list A).

Lemma before_cons x y a l : before x y (a :: l) ↔ (x = a ∧ y ∈ l) ∨ before x y l.
Proof.
  split.
  - intros (i & j & Hij & Hi & Hj). destruct j as [|j]; [lia|].
    destruct i as [|i]; simpl in *.
    + left. split; [congruence|]. by eapply list_elem_of_lookup_2.
    + right. exists i, j. split_and!; [lia|done..].
  - intros [[-> Hy]|(i & j & Hij & Hi & Hj)].
    + apply list_elem_of_lookup_1 in Hy as [j Hj]. exists 0, (S j). split_and!; [lia|done..].
    + exists (S i), (S j). split_and!; [lia|done..].
Qed.

Lemma before_elem x y l : before x y l → x ∈ l ∧ y ∈ l.
Proof. intros (i & j & _ & Hi & Hj). split; by eapply list_elem_of_lookup_2. Qed.

Lemma before_sublist x y l1 l2 : l1 `sublist_of` l2 → before x y l1 → before x y l2.
Proof.
  induction 1 as [|a l1 l2 Hsub IH|a l1 l2 Hsub IH].
  - intros (i & j & _ & Hi & _). by rewrite lookup_nil in Hi.
  - rewrite !before_cons. intros [[-> Hy]|Hb].
    + left. split; [done|]. by eapply elem_of_sublist.
    + right. by apply IH.
  - rewrite before_cons. intros Hb. right. by apply IH.
Qed.

Lemma before_filter (P : A → Prop) `{∀ a, Decision (P a)} x y l :
  P x → P y → before x y l → before x y (filter P l).
Proof.
  intros Hx Hy. induction l as [|a l IH]; [by rewrite filter_nil|].
  rewrite before_cons. intros [[-> Hin]|Hb].
  - rewrite filter_cons_True by done. apply before_cons. left.
    split; [done|]. by apply list_elem_of_filter.
  - destruct (decide (P a)).
    + rewrite filter_cons_True by done. apply before_cons. right. by apply IH.
    + rewrite filter_cons_False by done. by apply IH.
Qed.

Lemma sorted_lookup (R : A → A → Prop) l i j x y :
  StronglySorted R l → i < j → l !! i = Some x → l !! j = Some y → R x y.
Proof.
  intros Hs. revert i j. induction Hs as [|a l Hs IH Ha]; intros i j Hij Hi Hj.
  - by rewrite lookup_nil in Hi.
  - destruct j as [|j]; [lia|]. destruct i as [|i]; simpl in *.
    + injection Hi as ->. rewrite Forall_forall in Ha. apply Ha.
      by eapply list_elem_of_lookup_2.
    + apply (IH i j); [lia|done..].
Qed.
End order_facts.

Section tie_facts.
Implicit Types (t : str) (ts : list str).

Lemma index_of_cons_ne t x ts : x ≠ t → index_of t (x :: ts) = S (index_of t ts).
Proof. intros Hne. simpl. by rewrite bool_decide_eq_false_2. Qed.

(** The order of [first_occurrences] is the order of the first
    occurrences. *)
Lemma first_occurrences_before t1 t2 ts :
  before t1 t2 (first_occurrences ts) → index_of t1 ts < index_of t2 ts.
Proof.
  induction ts as [|x r IH]; simpl first_occurrences.
  - intros (i & j & _ & Hi & _). by rewrite lookup_nil in Hi.
  - rewrite before_cons. intros [[-> Hin]|Hb].
    + apply list_elem_of_filter in Hin as [Hne _].
      rewrite (index_of_cons_ne t2) by done.
      simpl. rewrite bool_decide_eq_true_2 by done. lia.
    + pose proof (before_elem _ _ _ Hb) as [[H1 _]%list_elem_of_filter [H2 _]%list_elem_of_filter].
      rewrite !index_of_cons_ne by done.
      apply (before_sublist _ _ _ (first_occurrences r)) in Hb; [|apply sublist_filter].
      apply IH in Hb. lia.
Qed.

Lemma token_table_before (x y : str * nat) ts :
  before x y (token_table ts) → index_of x.1 ts < index_of y.1 ts.
Proof.
  intros (i & j & Hij & Hi & Hj). unfold token_table in *.
  apply list_lookup_fmap_Some in Hi as (t1 & -> & Hi).
  apply list_lookup_fmap_Some in Hj as (t2 & -> & Hj).
  apply first_occurrences_before. by exists i, j.
Qed.
End tie_facts.

(** C1, as the code has it. The ranking of [analyze] is the first [TOP_K]
    entries of the token-count table put in descending order of count;
    two entries with the same count keep their insertion order, that is,
    the token whose first occurrence comes earlier is ranked first. *)
Theorem analyze_ranks_by_count_then_insertion
    (U : unicode_db) (TOP_K POST_LIMIT_PER_SOURCE : Z) (items : list item) :
  ∃ full : counter,
    (analyze U TOP_K POST_LIMIT_PER_SOURCE items).1 = take (Z.to_nat TOP_K) full
    ∧ full ≡ₚ token_table (token_stream U items)
    ∧ StronglySorted (λ a b, b.2 ≤ a.2) full
    ∧ ∀ x y, before x y full → x.2 = y.2 →
        index_of x.1 (token_stream U items) < index_of y.1 (token_stream U items).
Proof.
  exists (sorted_desc (token_table (token_stream U items))). split_and!.
  - unfold analyze, most_common. simpl. by rewrite count_tokens_table.
  - apply sorted_desc_perm.
  - apply sorted_desc_sorted.
  - intros x y Hb Heq. apply token_table_before.
    apply (before_filter (λ a, a.2 = x.2)) in Hb; [|done..].
    rewrite sorted_desc_class in Hb.
    eapply before_sublist; [|exact Hb]. apply sublist_filter.
Qed.

(** Against the tie-break as C1 words it. With the titles ["ab cd"] and
    ["cd ab"] both tokens end with the count 2; ["cd"] is the first to
    reach that count (at the third token, ["ab"] at the fourth), and yet
    ["ab"], inserted first, is ranked before it. *)
Lemma first_to_reach_count_does_not_win_tie :
  let items := [(lit "s", lit "ab cd", lit "u1"); (lit "s", lit "cd ab", lit "u2")] in
  let ts := token_stream ascii_db items in
  (analyze ascii_db 10 5 items).1 = [(lit "ab", 2); (lit "cd", 2)]
  ∧ reached_at (lit "cd") ts < reached_at (lit "ab") ts.
Proof. vm_compute. split; [reflexivity | repeat constructor]. Qed.

Section top_facts.
Context (U : unicode_db) (TOP_K POST_LIMIT_PER_SOURCE : Z).

Lemma analyze_top (items : list item) :
  (analyze U TOP_K POST_LIMIT_PER_SOURCE items).1
  = take (Z.to_nat TOP_K) (sorted_desc (token_table (token_stream U items))).
Proof. unfold analyze, most_common. simpl. by rewrite count_tokens_table. Qed.

Lemma analyze_top_sublist (items : list item) :
  (analyze U TOP_K POST_LIMIT_PER_SOURCE items).1
    `sublist_of` sorted_desc (token_table (token_stream U items)).
Proof. rewrite analyze_top. apply sublist_take. Qed.

(** The ranked keywords are distinct. *)
Lemma analyze_top_NoDup (items : list item) :
  NoDup (analyze U TOP_K POST_LIMIT_PER_SOURCE items).1.*1.
Proof.
  eapply sublist_NoDup; [|apply fmap_sublist, analyze_top_sublist].
  rewrite sorted_desc_perm, token_table_keys. apply first_occurrences_NoDup.
Qed.
End top_facts.

(** C2. The ranking of [analyze] has at most [TOP_K] entries, its counts
    do not increase along the ranks, and the count of every entry is the
    number of occurrences of that very token among the tokens of all
    titles. *)
Theorem analyze_ranking_counts
    (U : unicode_db) (TOP_K POST_LIMIT_PER_SOURCE : Z) (items : list item) :
  (0 ≤ TOP_K)%Z →
  let top := (analyze U TOP_K POST_LIMIT_PER_SOURCE items).1 in
  (Z.of_nat (length top) ≤ TOP_K)%Z
  ∧ (∀ i j x y, i ≤ j → top !! i = Some x → top !! j = Some y → y.2 ≤ x.2)
  ∧ Forall (λ x, x.2 = occurrences x.1 (token_stream U items)) top.
Proof.
  intros HK top. split_and!.
  - unfold top. rewrite analyze_top, length_take. lia.
  - intros i j x y Hij Hi Hj.
    destruct (decide (i = j)) as [->|Hne]; [rewrite Hi in Hj; by injection Hj as ->|].
    assert (Hs : StronglySorted (λ a b : str * nat, b.2 ≤ a.2) top).
    { unfold top. rewrite analyze_top.
      eapply StronglySorted_app_1_l. rewrite take_drop. apply sorted_desc_sorted. }
    apply (sorted_lookup _ top i j x y Hs); [lia|done..].
  - apply Forall_forall. intros x Hx. apply token_table_count.
    rewrite <- sorted_desc_perm. eapply elem_of_sublist; [exact Hx|].
    apply analyze_top_sublist.
Qed.

(** ** The evidence index *)

Section evidence_facts.
Context (U : unicode_db) (POST_LIMIT_PER_SOURCE : Z).
Implicit Types (related : gmap str (list item)) (top : counter) (k : str)
               (it : item) (ev : list item).

Lemma relate_step_lookup it related (kc : str * nat) k :
  relate_step POST_LIMIT_PER_SOURCE
    (list_to_set (extract_tokens U (item_title it))) it related kc !! k
  = if bool_decide (k = kc.1)
    then (if bool_decide (eligible U k it)
             && (Z.of_nat (length (default [] (related !! k))) <? POST_LIMIT_PER_SOURCE)%Z
          then Some (default [] (related !! k) ++ [it]) else related !! k)
    else related !! k.
Proof.
  unfold relate_step, related_len.
  assert (Hel : ∀ k', bool_decide (k' ∈ (list_to_set (extract_tokens U (item_title it)) : gset str))
                   && truthy (item_link it) = bool_decide (eligible U k' it)).
  { intros k'. unfold eligible, truthy. apply eq_true_iff_eq.
    rewrite andb_true_iff, negb_true_iff, !bool_decide_eq_true, bool_decide_eq_false. done. }
  rewrite Hel. destruct (decide (k = kc.1)) as [->|Hne].
  - rewrite (bool_decide_eq_true_2 (kc.1 = kc.1)) by done.
    destruct (_ && _); [by rewrite lookup_insert_eq | done].
  - rewrite (bool_decide_eq_false_2 (k = kc.1)) by done.
    destruct (_ && _); [by rewrite lookup_insert_ne | done].
Qed.

(** The inner loop touches the list of every ranked keyword once. *)
Lemma relate_inner it related top k ev :
  NoDup top.*1 → related !! k = Some ev →
  foldl (relate_step POST_LIMIT_PER_SOURCE
           (list_to_set (extract_tokens U (item_title it))) it) related top !! k
  = Some (if bool_decide (k ∈ top.*1) then evidence_step U POST_LIMIT_PER_SOURCE k ev it else ev).
Proof.
  revert related ev. induction top as [|[k0 n] top IH]; intros related ev Hnd Hk.
  - simpl. by rewrite Hk.
  - rewrite fmap_cons in Hnd. apply NoDup_cons in Hnd as [Hk0 Hnd]. cbn [foldl].
    destruct (decide (k = k0)) as [->|Hne].
    + rewrite (IH _ (evidence_step U POST_LIMIT_PER_SOURCE k0 ev it) Hnd).
      * rewrite bool_decide_eq_false_2 by done.
        rewrite bool_decide_eq_true_2; [done|]. rewrite fmap_cons. by left.
      * rewrite relate_step_lookup. simpl. rewrite bool_decide_eq_true_2 by done.
        rewrite Hk. simpl. unfold evidence_step. by destruct (_ && _).
    + rewrite (IH _ ev Hnd).
      * f_equal. rewrite (bool_decide_ext (k ∈ ((k0, n) :: top).*1) (k ∈ top.*1)); [done|].
        rewrite fmap_cons, elem_of_cons. simpl. tauto.
      * rewrite relate_step_lookup. simpl. by rewrite bool_decide_eq_false_2.
Qed.

Lemma relate_inner_other it related top k :
  k ∉ top.*1 →
  foldl (relate_step POST_LIMIT_PER_SOURCE
           (list_to_set (extract_tokens U (item_title it))) it) related top !! k
  = related !! k.
Proof.
  revert related. induction top as [|[k0 n] top IH]; intros related Hk; [done|].
  rewrite fmap_cons, not_elem_of_cons in Hk. destruct Hk as [Hne Hk]. cbn [foldl].
  rewrite IH by done. rewrite relate_step_lookup. by rewrite bool_decide_eq_false_2.
Qed.

Lemma relate_outer related top (items : list item) k ev :
  NoDup top.*1 → k ∈ top.*1 → related !! k = Some ev →
  foldl (λ related it,
           let toks : gset str := list_to_set (extract_tokens U (item_title it)) in
           foldl (relate_step POST_LIMIT_PER_SOURCE toks it) related top)
        related items !! k
  = Some (foldl (evidence_step U POST_LIMIT_PER_SOURCE k) ev items).
Proof.
  intros Hnd Hin. revert related ev.
  induction items as [|it rest IH]; intros related ev Hk; [done|].
  cbn [foldl]. apply IH. rewrite (relate_inner _ _ _ _ ev) by done.
  by rewrite bool_decide_eq_true_2.
Qed.

(** The loop of one keyword: the first eligible items, up to the limit. *)
Lemma evidence_loop k ev (items : list item) :
  foldl (evidence_step U POST_LIMIT_PER_SOURCE k) ev items
  = ev ++ take (Z.to_nat POST_LIMIT_PER_SOURCE - length ev) (filter (eligible U k) items).
Proof.
  revert ev. induction items as [|it rest IH]; intros ev.
  - cbn [foldl]. rewrite filter_nil, take_nil. by rewrite app_nil_r.
  - cbn [foldl]. rewrite IH. unfold evidence_step.
    destruct (decide (eligible U k it)) as [He|He].
    + rewrite bool_decide_eq_true_2, filter_cons_True by done. simpl.
      destruct (Z.ltb_spec (Z.of_nat (length ev)) POST_LIMIT_PER_SOURCE) as [Hlt|Hge].
      * rewrite length_app. simpl.
        replace (Z.to_nat POST_LIMIT_PER_SOURCE - length ev)
          with (S (Z.to_nat POST_LIMIT_PER_SOURCE - (length ev + 1))) by lia.
        simpl. by rewrite <- app_assoc.
      * by replace (Z.to_nat POST_LIMIT_PER_SOURCE - length ev) with 0 by lia.
    + rewrite bool_decide_eq_false_2, filter_cons_False by done. done.
Qed.
End evidence_facts.

Section related_facts.
Context (U : unicode_db) (TOP_K POST_LIMIT_PER_SOURCE : Z).

Lemma related_init (top : counter) (k : str) :
  k ∈ top.*1 →
  (list_to_map ((λ kc : str * nat, (kc.1, [])) <$> top) : gmap str (list item)) !! k = Some [].
Proof.
  induction top as [|[k0 n] top IH]; [by intros ?%elem_of_nil|].
  rewrite !fmap_cons, elem_of_cons. cbn [list_to_map foldr fst]. intros Hin.
  destruct (decide (k = k0)) as [->|Hne].
  - apply lookup_insert_eq.
  - rewrite lookup_insert_ne by done. apply IH. by destruct Hin.
Qed.

(** The evidence list of a ranked keyword: the first eligible items of
    the item list, up to the limit. *)
Lemma analyze_related (items : list item) (k : str) :
  k ∈ (analyze U TOP_K POST_LIMIT_PER_SOURCE items).1.*1 →
  (analyze U TOP_K POST_LIMIT_PER_SOURCE items).2 !! k
  = Some (take (Z.to_nat POST_LIMIT_PER_SOURCE) (filter (eligible U k) items)).
Proof.
  intros Hin. pose proof (analyze_top_NoDup U TOP_K POST_LIMIT_PER_SOURCE items) as Hnd.
  unfold analyze in *. cbn [fst snd] in *. unfold relate.
  rewrite (relate_outer U POST_LIMIT_PER_SOURCE _ _ items k []); [|done..|by apply related_init].
  rewrite evidence_loop. simpl. by rewrite Nat.sub_0_r.
Qed.
(** [related] has no entry beyond the ranked keywords. *)
Lemma analyze_related_only_ranked (items : list item) (k : str) :
  k ∉ (analyze U TOP_K POST_LIMIT_PER_SOURCE items).1.*1 →
  (analyze U TOP_K POST_LIMIT_PER_SOURCE items).2 !! k = None.
Proof.
  unfold analyze. cbn [fst snd]. unfold relate.
  generalize (most_common TOP_K (count_tokens U items)) as top. intros top Hk.
  assert (Hinit : (list_to_map ((λ kc : str * nat, (kc.1, [])) <$> top)
                     : gmap str (list item)) !! k = None).
  { apply not_elem_of_list_to_map_1. by rewrite <- list_fmap_compose. }
  revert Hinit. generalize (list_to_map ((λ kc : str * nat, (kc.1, [])) <$> top)
                              : gmap str (list item)) as related.
  induction items as [|it rest IH]; intros related Hrel; [done|].
  cbn [foldl]. apply IH. by rewrite relate_inner_other.
Qed.
End related_facts.

(** C4. For every ranked keyword, the evidence list that [analyze] builds
    has at most [POST_LIMIT_PER_SOURCE] items; each of them has a link
    that is not empty and a title whose set of extracted tokens holds the
    keyword; and they stand in the order of the item list.  The list is
    the first eligible items, up to the limit. *)
Theorem analyze_evidence_bounded
    (U : unicode_db) (TOP_K POST_LIMIT_PER_SOURCE : Z) (items : list item) (k : str) :
  (0 ≤ POST_LIMIT_PER_SOURCE)%Z →
  k ∈ (analyze U TOP_K POST_LIMIT_PER_SOURCE items).1.*1 →
  ∃ ev : list item,
    (analyze U TOP_K POST_LIMIT_PER_SOURCE items).2 !! k = Some ev
    ∧ (Z.of_nat (length ev) ≤ POST_LIMIT_PER_SOURCE)%Z
    ∧ Forall (λ it, k ∈ (list_to_set (extract_tokens U (item_title it)) : gset str)
                    ∧ item_link it ≠ []) ev
    ∧ ev `sublist_of` items
    ∧ ev = take (Z.to_nat POST_LIMIT_PER_SOURCE) (filter (eligible U k) items).
Proof.
  intros HL Hin. eexists. split; [by apply analyze_related|]. split_and!; [| | |done].
  - rewrite length_take. lia.
  - apply Forall_forall. intros it Hit.
    pose proof (elem_of_sublist _ _ _ Hit
      (sublist_take (filter (eligible U k) items) (Z.to_nat POST_LIMIT_PER_SOURCE))) as He.
    by apply list_elem_of_filter in He as [He _].
  - etrans; [apply sublist_take | apply sublist_filter].
Qed.

(** A run of C4: two items hold the keyword, the one without a link is
    left out. *)
Lemma analyze_evidence_bounded_witness :
  ∃ ev : list item,
    (analyze ascii_db 10 5
       [(lit "a", lit "Rust is fast", lit "u1"); (lit "a", lit "Rust async", lit "")]).2
      !! lit "Rust" = Some ev
    ∧ (Z.of_nat (length ev) ≤ 5)%Z
    ∧ Forall (λ it, lit "Rust" ∈ (list_to_set (extract_tokens ascii_db (item_title it)) : gset str)
                    ∧ item_link it ≠ []) ev
    ∧ ev `sublist_of` [(lit "a", lit "Rust is fast", lit "u1"); (lit "a", lit "Rust async", lit "")]
    ∧ ev = take (Z.to_nat 5)
             (filter (eligible ascii_db (lit "Rust"))
                [(lit "a", lit "Rust is fast", lit "u1"); (lit "a", lit "Rust async", lit "")]).
Proof.
  apply (analyze_evidence_bounded ascii_db 10 5); [lia|].
  vm_compute. constructor.
Defined.

(** A run of C2 with the default [TOP_K]. *)
Lemma analyze_ranking_counts_witness :
  let top := (analyze ascii_db 10 5
                [(lit "a", lit "Rust is fast", lit "u1"); (lit "a", lit "Rust async", lit "")]).1 in
  (Z.of_nat (length top) ≤ 10)%Z
  ∧ (∀ i j x y, i ≤ j → top !! i = Some x → top !! j = Some y → y.2 ≤ x.2)
  ∧ Forall (λ x, x.2 = occurrences x.1
       (token_stream ascii_db
          [(lit "a", lit "Rust is fast", lit "u1"); (lit "a", lit "Rust async", lit "")])) top.
Proof. apply (analyze_ranking_counts ascii_db 10 5); lia. Defined.

(** The scenario of the specification, with [TOP_K = 2] and
    [POST_LIMIT_PER_SOURCE = 2]: ["Rust"] is ranked first with count 3, and
    its evidence is the first two of the three items. *)
Example rust_scenario :
  (analyze ascii_db 2 2 rust_items).1 = [(lit "Rust", 3); (lit "fast", 1)]
  ∧ (analyze ascii_db 2 2 rust_items).2 !! lit "Rust" = Some (take 2 rust_items).
Proof. split; vm_compute; reflexivity. Qed.

(** Tokens that differ in case only are counted apart. *)
Example case_sensitive_counts :
  (analyze ascii_db 10 5 [(lit "s", lit "Go GO Go", lit "u")]).1
  = [(lit "Go", 2); (lit "GO", 1)].
Proof. vm_compute. reflexivity. Qed.

(** ** The channel resolver *)

Section channel_facts.
Context (U : unicode_db).
Implicit Types (s raw cur : str) (p : char → bool).

Lemma drop_while_decomp p s :
  ∃ pre, s = pre ++ drop_while p s ∧ Forall (λ c, p c = true) pre.
Proof.
  induction s as [|c r (pre & Hr & Hpre)]; simpl.
  - by exists [].
  - destruct (p c) eqn:Hc.
    + exists (c :: pre). split; [simpl; by f_equal | by constructor].
    + by exists [].
Qed.

Lemma drop_while_all p s : Forall (λ c, p c = true) s → drop_while p s = [].
Proof. induction 1 as [|c r Hc _ IH]; simpl; [done|]. by rewrite Hc. Qed.

Lemma drop_while_none p s : (∀ c, c ∈ s → p c = false) → drop_while p s = s.
Proof.
  destruct s as [|c r]; simpl; [done|]. intros Hs.
  rewrite Hs; [done|]. by left.
Qed.

(** [rstrip] cuts a whitespace suffix, [strip] a prefix as well. *)
Lemma rstrip_decomp s :
  ∃ post, s = rstrip U s ++ post ∧ Forall (λ c, isspace U c = true) post.
Proof.
  unfold rstrip, lstrip.
  destruct (drop_while_decomp (isspace U) (reverse s)) as (pre & Hs & Hpre).
  exists (reverse pre). split; [|by apply Forall_reverse].
  rewrite <- reverse_app, <- Hs. by rewrite reverse_involutive.
Qed.

Lemma strip_decomp raw :
  ∃ pre post, raw = pre ++ strip U raw ++ post
              ∧ Forall (λ c, isspace U c = true) pre
              ∧ Forall (λ c, isspace U c = true) post.
Proof.
  destruct (drop_while_decomp (isspace U) raw) as (pre & Hraw & Hpre).
  destruct (rstrip_decomp (lstrip U raw)) as (post & Hl & Hpost).
  exists pre, post. split_and!; [|done..].
  unfold strip. by rewrite <- Hl.
Qed.

Lemma split_from_spaces cur s :
  Forall (λ c, isspace U c = true) s →
  split_from U cur s = if bool_decide (cur = []) then [] else [cur].
Proof.
  intros Hs. revert cur. induction Hs as [|c r Hc _ IH]; intros cur; simpl; [done|].
  rewrite Hc. rewrite !IH. by case_bool_decide.
Qed.

Lemma split_from_app_spaces cur s post :
  Forall (λ c, isspace U c = true) post →
  split_from U cur (s ++ post) = split_from U cur s.
Proof.
  intros Hpost. revert cur. induction s as [|c r IH]; intros cur; simpl.
  - by apply split_from_spaces.
  - destruct (isspace U c); [|apply IH]. by rewrite IH.
Qed.

Lemma split_spaces_app pre s :
  Forall (λ c, isspace U c = true) pre → split U (pre ++ s) = split U s.
Proof.
  unfold split. induction 1 as [|c r Hc _ IH]; simpl; [done|]. by rewrite Hc.
Qed.

(** [split] does not see the whitespace that [strip] removes. *)
Lemma split_strip raw : split U (strip U raw) = split U raw.
Proof.
  destruct (strip_decomp raw) as (pre & post & Hraw & Hpre & Hpost).
  rewrite Hraw at 2. rewrite split_spaces_app by done.
  unfold split. by rewrite split_from_app_spaces.
Qed.

Lemma strip_elem raw c : c ∈ strip U raw → c ∈ raw.
Proof.
  destruct (strip_decomp raw) as (pre & post & Hraw & _). intros Hc.
  rewrite Hraw, !elem_of_app. tauto.
Qed.

Lemma backtrack_bounds (ok : nat → bool) lo k j :
  backtrack ok lo k = Some j → lo ≤ j ≤ k ∧ ok j = true.
Proof.
  induction k as [|k IH]; simpl.
  - destruct (Nat.ltb_spec 0 lo); [done|]. destruct (ok 0) eqn:H0; [|done].
    intros [= <-]. split; [lia|done].
  - destruct (Nat.ltb_spec (S k) lo); [done|]. destruct (ok (S k)) eqn:Hk.
    + intros [= <-]. split; [lia|done].
    + intros Hb. apply IH in Hb. split; [lia|tauto].
Qed.

(** A match of [ID_RE]: [C] or [G], then eight or more of [[A-Z0-9]]. *)
Lemma ID_RE_match prev s n :
  ID_RE U prev s = Some n →
  ∃ c rest, take n s = c :: rest ∧ id_first c = true
            ∧ Forall (λ x, id_rest x = true) rest ∧ 8 ≤ length rest.
Proof.
  unfold ID_RE. destruct s as [|c r]; [done|].
  destruct (word_boundary U prev (Some c) && id_first c) eqn:Hc; [|done].
  apply andb_true_iff in Hc as [_ Hc].
  destruct (backtrack _ 8 (greedy id_rest r)) as [j|] eqn:Hj; [|done].
  apply backtrack_bounds in Hj as [Hj _].
  intros [= <-]. exists c, (take j r). split_and!; [done..| |].
  - pose proof (greedy_Forall id_rest r) as Hall.
    rewrite <- (take_drop j (take (greedy id_rest r) r)) in Hall.
    apply Forall_app in Hall as [Hall _]. rewrite take_take in Hall.
    by replace (j `min` greedy id_rest r) with j in Hall by lia.
  - pose proof (greedy_le id_rest r). rewrite length_take. lia.
Qed.

Lemma search_from_match (m : matcher) prev s w :
  search_from m prev s = Some w → ∃ prev' s' n, m prev' s' = Some n ∧ w = take n s'.
Proof.
  revert prev. induction s as [|c r IH]; intros prev; simpl.
  - destruct (m prev []) as [n|] eqn:Hm; [|done]. intros [= <-]. eauto.
  - destruct (m prev (c :: r)) as [n|] eqn:Hm; [|apply IH]. intros [= <-]. eauto.
Qed.

(** No match where no character can start one. *)
Lemma search_ID_RE_none prev s :
  Forall (λ c, id_first c = false) s → search_from (ID_RE U) prev s = None.
Proof.
  intros Hs. revert prev. induction Hs as [|c r Hc _ IH]; intros prev; simpl; [done|].
  rewrite Hc, andb_false_r. apply IH.
Qed.
Lemma drop_while_head p s c r : drop_while p s = c :: r → p c = false.
Proof.
  induction s as [|x s IH]; simpl; [done|].
  destruct (p x) eqn:Hx; [done|]. by intros [= -> _].
Qed.

(** What [rstrip] leaves does not end in whitespace. *)
Lemma rstrip_last s pre c : rstrip U s = pre ++ [c] → isspace U c = false.
Proof.
  unfold rstrip, lstrip. intros Hs.
  apply (f_equal reverse) in Hs. rewrite reverse_involutive, reverse_snoc in Hs.
  by apply drop_while_head in Hs.
Qed.

Lemma split_from_nil cur s :
  split_from U cur s = [] → cur = [] ∧ Forall (λ c, isspace U c = true) s.
Proof.
  revert cur. induction s as [|c r IH]; intros cur; simpl.
  - case_bool_decide; [done|discriminate].
  - destruct (isspace U c) eqn:Hc.
    + case_bool_decide; [|discriminate]. intros [_ Hr]%IH. by split; [|constructor].
    + intros [Hcur _]%IH. by destruct cur.
Qed.

(** The fallback finds no token only when the stripped input is a run of
    [#] characters. *)
Lemma resolve_channel_id_IndexError_inv raw :
  resolve_channel_id U raw = inl IndexError →
  raw ≠ [] ∧ Forall (λ c, c = 35%N) (strip U raw).
Proof.
  unfold resolve_channel_id, truthy. case_bool_decide as Hraw; [done|]. simpl.
  destruct (search _ _); [done|].
  destruct (split U _) eqn:Hsplit; [|done]. intros _. split; [done|].
  apply split_from_nil in Hsplit as [_ Hsp]. unfold lstrip_chars in Hsp.
  destruct (drop_while_decomp (λ c, bool_decide (c ∈ lit "#")) (strip U raw))
    as (pre & Hs & Hpre).
  assert (Hhash : Forall (λ c, c = 35%N) pre).
  { eapply Forall_impl; [exact Hpre|]. simpl. intros c Hc%bool_decide_eq_true.
    by apply list_elem_of_singleton in Hc. }
  destruct (drop_while _ (strip U raw)) as [|x l] eqn:Hd using rev_ind.
  - rewrite app_nil_r in Hs. by rewrite Hs.
  - clear IHl. rewrite Forall_app, Forall_singleton in Hsp. destruct Hsp as [_ Hx].
    rewrite app_assoc in Hs. unfold strip in Hs at 1. apply rstrip_last in Hs. congruence.
Qed.
End channel_facts.

(** The two branches of [resolve_channel_id]: it answers the identifier
    that [ID_RE] finds in the stripped, uppercased input, [C] or [G]
    followed by at least eight characters of [[A-Z0-9]]; when there is
    none, the first whitespace-delimited token of the input without its
    leading [#]. *)
Theorem resolve_channel_id_extracts (U : unicode_db) :
  resolve_channel_id U (lit "C12345678 # main channel") = inr (lit "C12345678")
  ∧ resolve_channel_id U (lit "#general") = inr (lit "general")
  ∧ (∀ raw m, raw ≠ [] → search (ID_RE U) (str_upper U (strip U raw)) = Some m →
       resolve_channel_id U raw = inr m
       ∧ ∃ c rest, m = c :: rest ∧ id_first c = true
                   ∧ Forall (λ x, id_rest x = true) rest ∧ 8 ≤ length rest)
  ∧ (∀ raw, raw ≠ [] → search (ID_RE U) (str_upper U (strip U raw)) = None →
       resolve_channel_id U raw
       = match split U (lstrip_chars (lit "#") (strip U raw)) with
         | [] => inl IndexError
         | name :: _ => inr name
         end)
  ∧ (∀ raw name rest,
       search (ID_RE U) (str_upper U (strip U raw)) = None → 35%N ∉ raw →
       split U raw = name :: rest →
       resolve_channel_id U raw = inr name).
Proof.
  split_and!.
  - vm_compute. reflexivity.
  - vm_compute. reflexivity.
  - intros raw m Hraw Hm. unfold resolve_channel_id, truthy.
    rewrite bool_decide_eq_false_2 by done. simpl. rewrite Hm. split; [done|].
    apply search_from_match in Hm as (prev & s & n & Hn & ->).
    by apply ID_RE_match in Hn.
  - intros raw Hraw Hm. unfold resolve_channel_id, truthy.
    rewrite bool_decide_eq_false_2 by done. simpl. by rewrite Hm.
  - intros raw name rest Hm Hhash Hsplit. unfold resolve_channel_id, truthy.
    rewrite bool_decide_eq_false_2 by (by intros ->). simpl. rewrite Hm.
    unfold lstrip_chars. rewrite drop_while_none.
    + by rewrite split_strip, Hsplit.
    + intros c Hc%strip_elem. apply bool_decide_eq_false_2.
      intros ->%list_elem_of_singleton. done.
Qed.

(** The fallback on an input without [#], when the uppercased input holds
    no identifier. *)
Lemma resolve_channel_id_extracts_witness :
  resolve_channel_id ascii_db (lit "  my-chan  etc") = inr (lit "my-chan").
Proof.
  apply (proj2 (proj2 (proj2 (proj2 (resolve_channel_id_extracts ascii_db))))
           (lit "  my-chan  etc") (lit "my-chan") [lit "etc"]).
  - vm_compute. reflexivity.
  - vm_compute. intros H. repeat (inversion H as [|? ? ? H']; clear H; rename H' into H; subst).
  - vm_compute. reflexivity.
Defined.

(** C7. [resolve_channel_id] takes the identifier out of a decorated
    string, also from its middle, and ["#general"] gives ["general"].  But
    it looks for the identifier in the uppercased input and answers what
    it finds there, so a name is not always returned as it is:
    ["changelogs"] holds no [#], [ID_RE] finds no identifier in it, its
    first whitespace token is ["changelogs"], and [resolve_channel_id]
    answers ["CHANGELOGS"]. *)
Theorem resolve_channel_id_uppercases_name (U : unicode_db) :
  resolve_channel_id U (lit "C12345678 # main channel") = inr (lit "C12345678")
  ∧ resolve_channel_id U (lit "see C12345678 here") = inr (lit "C12345678")
  ∧ resolve_channel_id U (lit "#general") = inr (lit "general")
  ∧ (35%N ∉ lit "changelogs")
  ∧ search (ID_RE U) (lit "changelogs") = None
  ∧ split U (lit "changelogs") = [lit "changelogs"]
  ∧ resolve_channel_id U (lit "changelogs") = inr (lit "CHANGELOGS").
Proof.
  split_and!; try (vm_compute; reflexivity).
  vm_compute. intros H.
  repeat (inversion H as [|? ? ? H']; clear H; rename H' into H; subst).
Qed.

(** Against C10 as it is worded. ["# #"] is made of [#] and whitespace
    only, and [resolve_channel_id] answers ["#"]. *)
Lemma hashes_and_spaces_may_resolve :
  lit "# #" ≠ []
  ∧ Forall (λ c, isspace ascii_db c = true ∨ c = 35%N) (lit "# #")
  ∧ resolve_channel_id ascii_db (lit "# #") = inr (lit "#").
Proof.
  split_and!.
  - discriminate.
  - repeat (apply Forall_cons; split; [(by right) || (by left)|]). constructor.
  - vm_compute. reflexivity.
Qed.

(** C10, as the code has it. On an input that is not empty and, once the
    surrounding whitespace is stripped, holds nothing but [#] characters
    (as ["#"] or ["   "]), [resolve_channel_id] neither answers nor raises
    its own error for the empty input: taking the first of an empty list
    of tokens raises [IndexError]. *)
Theorem resolve_channel_id_fallback_not_total (U : unicode_db) (raw : str) :
  raw ≠ [] →
  Forall (λ c, c = 35%N) (strip U raw) →
  resolve_channel_id U raw = inl IndexError.
Proof.
  intros Hraw Hs. unfold resolve_channel_id, truthy.
  rewrite bool_decide_eq_false_2 by done. simpl.
  assert (Hup : str_upper U (strip U raw) = strip U raw).
  { unfold str_upper.
    replace (forallb is_ascii (strip U raw)) with true.
    - rewrite <- (list_fmap_id (strip U raw)) at 2. apply Forall_fmap_ext_1.
      eapply Forall_impl; [exact Hs|]. by intros c ->.
    - symmetry. apply forallb_Forall. eapply Forall_impl; [exact Hs|]. by intros c ->. }
  rewrite Hup. unfold search. rewrite search_ID_RE_none.
  - unfold lstrip_chars. rewrite drop_while_all; [done|].
    eapply Forall_impl; [exact Hs|]. by intros c ->.
  - eapply Forall_impl; [exact Hs|]. by intros c ->.
Qed.

(** A run of C10 on the two inputs of the claim. *)
Lemma resolve_channel_id_fallback_not_total_witness :
  resolve_channel_id ascii_db (lit "#") = inl IndexError
  ∧ resolve_channel_id ascii_db (lit "   ") = inl IndexError.
Proof.
  split.
  - apply (resolve_channel_id_fallback_not_total ascii_db (lit "#")).
    + vm_compute. discriminate.
    + vm_compute. repeat constructor.
  - apply (resolve_channel_id_fallback_not_total ascii_db (lit "   ")).
    + vm_compute. discriminate.
    + vm_compute. constructor.
Defined.

(** ** The run *)

Section run_facts.
Context (U : unicode_db) (TOP_K POST_LIMIT_PER_SOURCE : Z) (w : world).
Implicit Types (tr evs : list event) (items : list item) (ss : list source).

Lemma collect_html_run ss items tr :
  ∃ evs, collect_html U w ss items tr
         = (tr ++ evs, inr (items ++ concat ((λ s, default [] (html_items U w s)) <$> ss)))
         ∧ quiet evs.
Proof.
  unfold quiet. revert items tr. induction ss as [|s ss IH]; intros items tr; simpl.
  - exists []. unfold mret, io_ret. by rewrite !app_nil_r.
  - destruct (html_items U w s) as [its|]; simpl.
    + destruct (IH (items ++ its) (tr ++ [Sleep HtmlPause])) as (evs & Hrun & Hq).
      exists (Sleep HtmlPause :: evs). split; [|by constructor].
      unfold mbind, io_bind, emit. rewrite Hrun. by rewrite <- !app_assoc.
    + destruct (IH items (tr ++ [Print (WarnHtmlFetchFailed (src_name s))])) as (evs & Hrun & Hq).
      exists (Print (WarnHtmlFetchFailed (src_name s)) :: evs). split; [|by constructor].
      unfold mbind, io_bind, emit. rewrite Hrun. by rewrite <- !app_assoc.
Qed.

Lemma collect_rss_run ss items tr :
  ∃ evs, collect_rss U w ss items tr
         = (tr ++ evs, inr (items ++ concat ((λ s, default [] (rss_items U w s)) <$> ss)))
         ∧ quiet evs.
Proof.
  unfold quiet. revert items tr. induction ss as [|s ss IH]; intros items tr; simpl.
  - exists []. unfold mret, io_ret. by rewrite !app_nil_r.
  - destruct (rss_items U w s) as [its|]; simpl.
    + destruct (IH (items ++ its) (tr ++ [Sleep RssPause])) as (evs & Hrun & Hq).
      exists (Sleep RssPause :: evs). split; [|by constructor].
      unfold mbind, io_bind, emit. rewrite Hrun. by rewrite <- !app_assoc.
    + destruct (IH items (tr ++ [Print (WarnRssFetchFailed (src_name s))])) as (evs & Hrun & Hq).
      exists (Print (WarnRssFetchFailed (src_name s)) :: evs). split; [|by constructor].
      unfold mbind, io_bind, emit. rewrite Hrun. by rewrite <- !app_assoc.
Qed.

(** The fetch loops never raise, write and post nothing, and hand over
    the contributions of the sources one after the other. *)
Lemma collect_run tr :
  ∃ evs, collect U w tr = (tr ++ evs, inr (concat (contributions U w))) ∧ quiet evs.
Proof.
  unfold collect, contributions.
  destruct (collect_html_run (html_sources (sources_yaml w)) [] tr) as (evs1 & H1 & Hq1).
  destruct (collect_rss_run (rss_sources (sources_yaml w))
              (concat ((λ s, default [] (html_items U w s)) <$> html_sources (sources_yaml w)))
              (tr ++ evs1)) as (evs2 & H2 & Hq2).
  exists (evs1 ++ evs2). split; [|by apply Forall_app].
  clear Hq1 Hq2.
  unfold mbind, io_bind at 1. rewrite H1. simpl in *. rewrite H2.
  by rewrite concat_app, app_assoc.
Qed.
End run_facts.

Section main_facts.
Context (U : unicode_db) (TOP_K POST_LIMIT_PER_SOURCE : Z) (w : world).

Lemma must_env_set name v tr :
  environ w name = Some v → v ≠ [] → must_env w name tr = (tr, inr v).
Proof.
  intros Hv Hne. unfold must_env, truthy. rewrite Hv.
  by rewrite bool_decide_eq_false_2.
Qed.

(** [main] up to the first test on the collected items. *)
Lemma main_after_collect tok chan :
  environ w "SLACK_BOT_TOKEN" = Some tok → tok ≠ [] →
  environ w "SLACK_CHANNEL_ID" = Some chan → chan ≠ [] →
  ∃ evs, quiet evs ∧
    run_main U TOP_K POST_LIMIT_PER_SOURCE w
    = (if bool_decide (concat (contributions U w) = []) then emit (Print NoItemsFetched)
       else
         let '(top_list, related_map) :=
           analyze U TOP_K POST_LIMIT_PER_SOURCE (concat (contributions U w)) in
         if bool_decide (top_list = []) then emit (Print NoKeywordsExtracted)
         else
           _ ← save_markdown w top_list related_map (today w);
           _ ← post_to_slack U w top_list related_map;
           emit (Print Done)) evs.
Proof.
  intros Htok Htok' Hchan Hchan'.
  destruct (collect_run U w []) as (evs & Hrun & Hq). exists evs. split; [done|].
  unfold run_main, main. unfold mbind at 1, io_bind at 1.
  rewrite (must_env_set _ tok) by done.
  unfold mbind at 1, io_bind at 1. rewrite (must_env_set _ chan) by done.
  unfold mbind at 1, io_bind at 1. rewrite Hrun. done.
Qed.
End main_facts.

(** C8. With the two required inputs set: when no item was collected once
    every source was tried, or when the collected items give no ranked
    keyword, the run prints its status line and returns without raising;
    no digest document is written, the index is left alone and nothing is
    posted. *)
Theorem main_empty_result_ends_cleanly
    (U : unicode_db) (TOP_K POST_LIMIT_PER_SOURCE : Z) (w : world) (tok chan : str) :
  environ w "SLACK_BOT_TOKEN" = Some tok → tok ≠ [] →
  environ w "SLACK_CHANNEL_ID" = Some chan → chan ≠ [] →
  let items := concat (contributions U w) in
  items = [] ∨ (analyze U TOP_K POST_LIMIT_PER_SOURCE items).1 = [] →
  ∃ evs,
    run_main U TOP_K POST_LIMIT_PER_SOURCE w
    = (evs ++ [Print (if bool_decide (items = []) then NoItemsFetched
                      else NoKeywordsExtracted)], inr ())
    ∧ quiet (evs ++ [Print (if bool_decide (items = []) then NoItemsFetched
                            else NoKeywordsExtracted)]).
Proof.
  intros Htok Htok' Hchan Hchan' items Hempty.
  destruct (main_after_collect U TOP_K POST_LIMIT_PER_SOURCE w tok chan) as (evs & Hq & Hrun);
    [done..|].
  exists evs. rewrite Hrun. fold items. clear Hrun. split.
  - destruct (decide (items = [])) as [Hi|Hi].
    + by rewrite !(bool_decide_eq_true_2 _ Hi).
    + rewrite !(bool_decide_eq_false_2 _ Hi).
      destruct Hempty as [?|Htop]; [done|].
      destruct (analyze U TOP_K POST_LIMIT_PER_SOURCE items) as [top_list related_map].
      simpl in Htop. by subst top_list.
  - apply Forall_app. split; [done|]. by repeat constructor.
Qed.

(** Two runs of C8: every request fails; and the only title collected is
    made of stopwords. *)
Lemma main_empty_result_ends_cleanly_witness :
  (∃ evs,
     run_main ascii_db 10 5 world_all_fail = (evs ++ [Print NoItemsFetched], inr ())
     ∧ quiet (evs ++ [Print NoItemsFetched]))
  ∧ (∃ evs,
       run_main ascii_db 10 5 world_stopwords = (evs ++ [Print NoKeywordsExtracted], inr ())
       ∧ quiet (evs ++ [Print NoKeywordsExtracted])).
Proof.
  split.
  - apply (main_empty_result_ends_cleanly ascii_db 10 5 world_all_fail
             (lit "xoxb-token") (lit "C12345678 # main channel"));
      [reflexivity | discriminate | reflexivity | discriminate |].
    left. vm_compute. reflexivity.
  - apply (main_empty_result_ends_cleanly ascii_db 10 5 world_stopwords
             (lit "xoxb-token") (lit "C12345678 # main channel"));
      [reflexivity | discriminate | reflexivity | discriminate |].
    right. vm_compute. reflexivity.
Defined.

(** A run that does produce a digest: both early exits are real
    alternatives. *)
Example main_posts_digest :
  ∃ top related,
    run_main ascii_db 10 5 world_two_feeds
    = ([Sleep RssPause; Sleep RssPause; MkdirDocs;
        WriteDigest (lit "docs/2025-01-06.md") top related;
        WriteIndex [index_title; []; lit "- [2025-01-06](./2025-01-06.html)"];
        PostParent (lit "C12345678") top;
        PostThread (lit "C12345678") (lit "Rust")
          [(lit "feed_a", lit "Rust 2.0 released", lit "https://blog.example/rust-2");
           (lit "feed_b", lit "Rust 2.0 released", lit "https://blog.example/rust-2")];
        PostThread (lit "C12345678") (lit "2.0")
          [(lit "feed_a", lit "Rust 2.0 released", lit "https://blog.example/rust-2");
           (lit "feed_b", lit "Rust 2.0 released", lit "https://blog.example/rust-2")];
        PostThread (lit "C12345678") (lit "released")
          [(lit "feed_a", lit "Rust 2.0 released", lit "https://blog.example/rust-2");
           (lit "feed_b", lit "Rust 2.0 released", lit "https://blog.example/rust-2")];
        Print Done], inr ())
    ∧ top = [(lit "Rust", 2); (lit "2.0", 2); (lit "released", 2)].
Proof. eexists _, _. split; [vm_compute; reflexivity | reflexivity]. Qed.

(** C6. [main] hands to [analyze] the outputs of the parsers, one after
    the other, with no deduplication of the whole: when two sources carry
    the same title and link, both items are handed over, although a second
    pass of [dedup] would have dropped one, and the digest of that run
    counts every keyword of the title twice. *)
Theorem cross_source_duplicates_survive (U : unicode_db) :
  (∀ w tr, ∃ evs, collect U w tr = (tr ++ evs, inr (concat (contributions U w))))
  ∧ ∃ w a b,
      contributions U w = [[a]; [b]]
      ∧ item_source a ≠ item_source b
      ∧ dedup_key U a = dedup_key U b
      ∧ (∃ evs, collect U w [] = (evs, inr [a; b]))
      ∧ dedup U [a; b] = [a]
      ∧ ∃ evs related,
          run_main U 10 5 w = (evs, inr ())
          ∧ WriteDigest (lit "docs/2025-01-06.md")
              [(lit "Rust", 2); (lit "2.0", 2); (lit "released", 2)] related ∈ evs.
Proof.
  split.
  - intros w tr. destruct (collect_run U w tr) as (evs & Hrun & _). eauto.
  - exists world_two_feeds,
      (lit "feed_a", lit "Rust 2.0 released", lit "https://blog.example/rust-2"),
      (lit "feed_b", lit "Rust 2.0 released", lit "https://blog.example/rust-2").
    split_and!.
    + vm_compute. reflexivity.
    + vm_compute. discriminate.
    + vm_compute. reflexivity.
    + eexists. vm_compute. reflexivity.
    + vm_compute. reflexivity.
    + eexists _, _. split; [vm_compute; reflexivity|].
      do 3 apply list_elem_of_further. apply list_elem_of_here.
Qed.

(** * Further properties of the code *)

(** ** [dedup], composed *)

Section dedup_more.
Context (U : unicode_db).
Implicit Types (seen : gset (str * str)) (items xs ys : list item).

Lemma dedup_from_app seen xs ys :
  dedup_from U seen (xs ++ ys)
  = dedup_from U seen xs ++ dedup_from U (list_to_set (dedup_key U <$> xs) ∪ seen) ys.
Proof.
  revert seen. induction xs as [|x xs IH]; intros seen.
  - simpl. f_equal. apply set_eq. intros k.
    rewrite elem_of_union, elem_of_empty. tauto.
  - cbn [app dedup_from fmap list_fmap list_to_set foldr].
    assert (Hset : ∀ T : gset (str * str),
      list_to_set (dedup_key U <$> xs) ∪ ({[dedup_key U x]} ∪ T)
      = {[dedup_key U x]} ∪ list_to_set (dedup_key U <$> xs) ∪ T).
    { intros T. apply set_eq. intros k.
      rewrite !elem_of_union, elem_of_singleton. tauto. }
    destruct (decide (dedup_key U x ∈ seen)) as [Hx|Hx].
    + rewrite (bool_decide_eq_true_2 _ Hx), IH. f_equal. f_equal.
      apply set_eq. intros k. rewrite !elem_of_union, elem_of_singleton.
      split; [tauto|]. intros [[->|?]|?]; tauto.
    + rewrite (bool_decide_eq_false_2 _ Hx), IH. simpl. by rewrite Hset.
Qed.

Lemma dedup_from_seen (S T : gset (str * str)) ys :
  dedup_from U (S ∪ T) ys = filter (λ y, dedup_key U y ∉ S) (dedup_from U T ys).
Proof.
  revert T. induction ys as [|y ys IH]; intros T; [done|]. cbn [dedup_from].
  destruct (decide (dedup_key U y ∈ T)) as [HT|HT].
  - rewrite (bool_decide_eq_true_2 _ HT).
    rewrite bool_decide_eq_true_2 by (apply elem_of_union; by right). apply IH.
  - rewrite (bool_decide_eq_false_2 _ HT).
    destruct (decide (dedup_key U y ∈ S)) as [HS|HS].
    + rewrite bool_decide_eq_true_2 by (apply elem_of_union; by left).
      rewrite filter_cons_False by (intros Hn; by apply Hn).
      rewrite <- IH. f_equal. apply set_eq. intros k.
      rewrite !elem_of_union, elem_of_singleton. split; [tauto|].
      intros [?|[->|?]]; tauto.
    + rewrite bool_decide_eq_false_2 by (rewrite elem_of_union; tauto).
      rewrite filter_cons_True by done. f_equal. rewrite <- IH. f_equal.
      apply set_eq. intros k. rewrite !elem_of_union, elem_of_singleton. tauto.
Qed.

Lemma dedup_app_eq xs ys :
  dedup U (xs ++ ys)
  = dedup U xs ++ filter (λ y, dedup_key U y ∉ dedup_key U <$> xs) (dedup U ys).
Proof.
  rewrite !dedup_unfold, dedup_from_app. f_equal.
  rewrite dedup_from_seen. apply list_filter_iff. intros y.
  by rewrite elem_of_list_to_set.
Qed.

(** The keys of the output are the keys of the input. *)
Lemma dedup_from_keys seen items k :
  k ∈ dedup_key U <$> dedup_from U seen items ↔ k ∈ dedup_key U <$> items ∧ k ∉ seen.
Proof.
  revert seen. induction items as [|x rest IH]; intros seen; cbn [dedup_from].
  - rewrite fmap_nil, elem_of_nil. tauto.
  - rewrite (fmap_cons _ x rest), (elem_of_cons _ k).
    destruct (decide (dedup_key U x ∈ seen)) as [Hx|Hx].
    + rewrite (bool_decide_eq_true_2 _ Hx), IH. split; [tauto|].
      intros [[->|?] ?]; tauto.
    + rewrite (bool_decide_eq_false_2 _ Hx), fmap_cons, elem_of_cons, IH.
      rewrite elem_of_union, elem_of_singleton.
      destruct (decide (k = dedup_key U x)) as [->|Hk]; tauto.
Qed.

Lemma dedup_keys_eq items k :
  k ∈ dedup_key U <$> dedup U items ↔ k ∈ dedup_key U <$> items.
Proof.
  rewrite dedup_unfold, dedup_from_keys. split; [tauto|].
  intros ?. split; [done|]. apply not_elem_of_empty.
Qed.

Lemma dedup_concat_eq (ls : list (list item)) :
  dedup U (concat (dedup U <$> ls)) = dedup U (concat ls).
Proof.
  induction ls as [|l ls IH]; [done|].
  rewrite fmap_cons. cbn [concat]. rewrite !dedup_app_eq, IH.
  rewrite !dedup_unfold, (dedup_from_id U ∅ (dedup_from U ∅ l)).
  - f_equal. apply list_filter_iff. intros y.
    rewrite <- (dedup_unfold U l). by rewrite dedup_keys_eq.
  - apply dedup_from_NoDup.
  - intros it _. apply not_elem_of_empty.
Qed.
End dedup_more.

(** X1. [dedup] of two sequences in a row: the first is deduplicated on
    its own, and of the second what remains is what its own dedup keeps
    and whose key the first does not hold. *)
Theorem dedup_app (U : unicode_db) (xs ys : list item) :
  dedup U (xs ++ ys)
  = dedup U xs ++ filter (λ y, dedup_key U y ∉ dedup_key U <$> xs) (dedup U ys).
Proof. apply dedup_app_eq. Qed.

(** X2. Deduplicating every part before deduplicating the whole changes
    nothing: a pass over the concatenated outputs of per-source passes
    gives what a single pass over all the raw items gives. *)
Theorem dedup_concat_dedup (U : unicode_db) (ls : list (list item)) :
  dedup U (concat (dedup U <$> ls)) = dedup U (concat ls).
Proof. apply dedup_concat_eq. Qed.

(** X3. [dedup] loses no key: a key is borne by an item of the output if
    and only if it is borne by an item of the input. *)
Theorem dedup_keeps_every_key (U : unicode_db) (items : list item) (k : str * str) :
  k ∈ dedup_key U <$> dedup U items ↔ k ∈ dedup_key U <$> items.
Proof. apply dedup_keys_eq. Qed.

(** X4. [dedup] leaves a sequence unchanged exactly when no two of its
    items have the same key. *)
Theorem dedup_fixed_iff_distinct_keys (U : unicode_db) (items : list item) :
  dedup U items = items ↔ NoDup (dedup_key U <$> items).
Proof.
  split.
  - intros <-. rewrite dedup_unfold. apply dedup_from_NoDup.
  - intros Hnd. rewrite dedup_unfold. apply dedup_from_id; [done|].
    intros it _. apply not_elem_of_empty.
Qed.

(** ** The token extractor, further *)

Section tokens_more.
Context (U : unicode_db).
Implicit Types (w text s : str).

Lemma tok_cont_ascii c : tok_cont c = true → is_ascii c = true ∧ ascii_isspace c = false.
Proof.
  unfold tok_cont, tok_start, is_upper_AZ, is_lower_az, is_digit_09, in_range,
    is_ascii, ascii_isspace, in_range.
  rewrite !orb_true_iff, !andb_true_iff, !N.leb_le, !N.eqb_eq, N.ltb_lt.
  intros Hc. split; [lia|].
  rewrite !orb_false_iff, !andb_false_iff, !N.leb_gt, N.eqb_neq. lia.
Qed.

Lemma tok_cont_not_space c : tok_cont c = true → isspace U c = false.
Proof. intros [Ha Hs]%tok_cont_ascii. unfold isspace. by rewrite Ha. Qed.

Lemma TOKEN_RE_shape prev s n :
  TOKEN_RE prev s = Some n →
  ∃ c r, take n s = c :: r ∧ tok_start c = true ∧ Forall (λ x, tok_cont x = true) r.
Proof.
  intros Hm. pose proof (TOKEN_RE_match _ _ _ Hm) as (Hn & _ & Hall).
  unfold TOKEN_RE in Hm. destruct s as [|c rest]; [done|].
  destruct (tok_start c) eqn:Hc; [|done].
  destruct n as [|n]; [lia|]. simpl in *. exists c, (take n rest).
  split_and!; [done..|]. by apply Forall_cons in Hall as [_ ?].
Qed.

Lemma finditer_from_no_start (m : matcher) skip pos prev s :
  (∀ prev' s', m prev' s' ≠ None → ∃ c r, s' = c :: r ∧ tok_start c = true) →
  Forall (λ c, tok_start c = false) s →
  finditer_from m skip pos prev s = [].
Proof.
  intros Hm Hs. revert skip pos prev.
  induction Hs as [|c r Hc _ IH]; intros skip pos prev; simpl; [done|].
  destruct skip; [|apply IH].
  destruct (m prev (c :: r)) eqn:Hmatch; [|apply IH].
  destruct (Hm prev (c :: r)) as (c' & r' & [= <- <-] & Hc'); congruence.
Qed.
End tokens_more.

(** X5. Every token of [extract_tokens] starts with an ASCII letter or
    digit and goes on with ASCII letters, digits and [#], [+], [.], [-]
    only; no token holds a whitespace character. *)
Theorem extract_tokens_alphabet (U : unicode_db) (text : str) :
  Forall (λ w, (∃ c r, w = c :: r ∧ tok_start c = true
                       ∧ Forall (λ x, tok_cont x = true) r)
               ∧ Forall (λ x, is_ascii x = true ∧ isspace U x = false) w)
         (extract_tokens U text).
Proof.
  apply Forall_forall. intros w Hin.
  apply extract_tokens_accepted in Hin as (_ & prev & s & n & Hm & ->).
  pose proof (TOKEN_RE_match _ _ _ Hm) as (_ & _ & Hall).
  split; [by eapply TOKEN_RE_shape|].
  eapply Forall_impl; [exact Hall|]. simpl. intros c Hc.
  split; [by apply tok_cont_ascii | by apply tok_cont_not_space].
Qed.

(** X6. A text without any ASCII letter or digit, as a title written in
    Japanese only, gives no token. *)
Theorem extract_tokens_needs_alphanumeric (U : unicode_db) (text : str) :
  Forall (λ c, tok_start c = false) text → extract_tokens U text = [].
Proof.
  intros Htext. rewrite extract_tokens_filter. unfold finditer.
  rewrite finditer_from_no_start; [done| |done].
  intros prev s Hm. unfold TOKEN_RE in Hm. destruct s as [|c r]; [done|].
  exists c, r. split; [done|]. by destruct (tok_start c).
Qed.

(** A title in Japanese: no token. *)
Lemma extract_tokens_needs_alphanumeric_witness :
  extract_tokens ascii_db index_title = [].
Proof.
  apply (extract_tokens_needs_alphanumeric ascii_db index_title).
  vm_compute. repeat constructor.
Defined.

(** ** The ranking, further *)

Section ranking_more.
Context (U : unicode_db) (TOP_K POST_LIMIT_PER_SOURCE : Z).
Implicit Types (c : counter) (t k : str) (ts : list str) (items : list item).

Lemma total_counter_incr t c : total (counter_incr t c) = S (total c).
Proof.
  unfold total. induction c as [|[k n] c IH]; [done|]. simpl.
  case_bool_decide; simpl; [done|]. rewrite IH. lia.
Qed.

Lemma total_counter_loop c ts :
  total (foldl (λ c t, counter_incr t c) c ts) = total c + length ts.
Proof.
  revert c. induction ts as [|t ts IH]; intros c; simpl; [lia|].
  rewrite IH, total_counter_incr. lia.
Qed.

Lemma occurrences_elem t ts : t ∈ ts → 1 ≤ occurrences t ts.
Proof.
  induction ts as [|x ts IH]; [by intros ?%elem_of_nil|].
  rewrite elem_of_cons, occurrences_cons. intros [->|Hin].
  - rewrite bool_decide_eq_true_2 by done. lia.
  - case_bool_decide; [lia | by apply IH].
Qed.

Lemma occurrences_app t ts1 ts2 :
  occurrences t (ts1 ++ ts2) = occurrences t ts1 + occurrences t ts2.
Proof. unfold occurrences. by rewrite filter_app, length_app. Qed.

Lemma analyze_top_in_table items x :
  x ∈ (analyze U TOP_K POST_LIMIT_PER_SOURCE items).1 →
  x ∈ token_table (token_stream U items).
Proof.
  intros Hx. rewrite <- sorted_desc_perm.
  eapply elem_of_sublist; [exact Hx | apply analyze_top_sublist].
Qed.

Lemma token_table_elem ts x : x ∈ token_table ts → x.1 ∈ ts.
Proof.
  unfold token_table. intros (t & -> & Ht)%list_elem_of_fmap.
  by apply first_occurrences_elem.
Qed.

(** An eligible item holds the keyword at least once. *)
Lemma eligible_le_occurrences k items :
  length (filter (eligible U k) items) ≤ occurrences k (token_stream U items).
Proof.
  induction items as [|it rest IH]; [done|].
  unfold token_stream. rewrite fmap_cons. cbn [concat]. rewrite occurrences_app.
  fold (token_stream U rest). destruct (decide (eligible U k it)) as [He|He].
  - rewrite filter_cons_True by done. simpl. destruct He as [Hk _].
    apply elem_of_list_to_set, occurrences_elem in Hk. lia.
  - rewrite filter_cons_False by done. lia.
Qed.

Lemma token_stream_elem t items :
  t ∈ token_stream U items ↔ ∃ it, it ∈ items ∧ t ∈ extract_tokens U (item_title it).
Proof.
  induction items as [|x rest IH].
  - split; [by intros ?%elem_of_nil | by intros (? & ?%elem_of_nil & _)].
  - unfold token_stream. rewrite fmap_cons. cbn [concat]. fold (token_stream U rest).
    rewrite elem_of_app, IH. split.
    + intros [?|(it & ? & ?)]; [exists x | exists it]; split; (done || by constructor).
    + intros (it & [->|?]%elem_of_cons & ?); [by left | right; eauto].
Qed.

Lemma relate_nil items : relate U POST_LIMIT_PER_SOURCE [] items = ∅.
Proof. unfold relate. simpl. induction items as [|it rest IH]; [done|]. apply IH. Qed.
End ranking_more.

(** X7. The first loop of [analyze] counts every token once: the counts
    of the table add up to the number of tokens of all titles. *)
Theorem count_tokens_total (U : unicode_db) (items : list item) :
  total (count_tokens U items) = length (token_stream U items).
Proof.
  unfold count_tokens. rewrite count_tokens_loop, total_counter_loop. done.
Qed.

(** X8. The ranked keywords are pairwise distinct; each is a token of
    some title, and its count is at least 1. *)
Theorem analyze_keywords_distinct_and_counted
    (U : unicode_db) (TOP_K POST_LIMIT_PER_SOURCE : Z) (items : list item) :
  NoDup (analyze U TOP_K POST_LIMIT_PER_SOURCE items).1.*1
  ∧ Forall (λ x, 1 ≤ x.2 ∧ ∃ it, it ∈ items ∧ x.1 ∈ extract_tokens U (item_title it))
           (analyze U TOP_K POST_LIMIT_PER_SOURCE items).1.
Proof.
  split; [apply analyze_top_NoDup|].
  apply Forall_forall. intros x Hx. apply analyze_top_in_table in Hx.
  pose proof (token_table_elem _ _ Hx) as Hin.
  split.
  - rewrite (token_table_count _ _ Hx). by apply occurrences_elem.
  - by apply token_stream_elem.
Qed.

(** X9. The evidence map has an entry for the ranked keywords, and for
    nothing else. *)
Theorem analyze_related_keys
    (U : unicode_db) (TOP_K POST_LIMIT_PER_SOURCE : Z) (items : list item) (k : str) :
  is_Some ((analyze U TOP_K POST_LIMIT_PER_SOURCE items).2 !! k)
  ↔ k ∈ (analyze U TOP_K POST_LIMIT_PER_SOURCE items).1.*1.
Proof.
  split.
  - intros Hsome. destruct (decide (k ∈ (analyze U TOP_K POST_LIMIT_PER_SOURCE items).1.*1))
      as [|Hn]; [done|].
    rewrite analyze_related_only_ranked in Hsome by done. by destruct Hsome.
  - intros Hin. rewrite analyze_related by done. eauto.
Qed.

(** X10. The evidence of a ranked keyword never has more items than the
    keyword has occurrences. *)
Theorem analyze_evidence_at_most_count
    (U : unicode_db) (TOP_K POST_LIMIT_PER_SOURCE : Z) (items : list item)
    (k : str) (n : nat) (ev : list item) :
  (k, n) ∈ (analyze U TOP_K POST_LIMIT_PER_SOURCE items).1 →
  (analyze U TOP_K POST_LIMIT_PER_SOURCE items).2 !! k = Some ev →
  length ev ≤ n.
Proof.
  intros Hkn Hev.
  assert (Hk : k ∈ (analyze U TOP_K POST_LIMIT_PER_SOURCE items).1.*1).
  { apply list_elem_of_fmap. by exists (k, n). }
  rewrite analyze_related in Hev by done. injection Hev as <-.
  apply analyze_top_in_table, token_table_count in Hkn. simpl in Hkn. subst n.
  rewrite length_take. pose proof (eligible_le_occurrences U k items). lia.
Qed.

(** A run of X10. *)
Lemma analyze_evidence_at_most_count_witness :
  length (take 2 rust_items) ≤ 3.
Proof.
  apply (analyze_evidence_at_most_count ascii_db 2 2 rust_items (lit "Rust") 3).
  - vm_compute. constructor.
  - vm_compute. reflexivity.
Defined.

(** X11. With [TOP_K] zero or negative, [analyze] ranks nothing and keeps
    no evidence, whatever the items. *)
Theorem analyze_nothing_without_top_k
    (U : unicode_db) (TOP_K POST_LIMIT_PER_SOURCE : Z) (items : list item) :
  (TOP_K ≤ 0)%Z →
  analyze U TOP_K POST_LIMIT_PER_SOURCE items = ([], ∅).
Proof.
  intros HK. unfold analyze, most_common.
  replace (Z.to_nat TOP_K) with 0 by lia. simpl. by rewrite relate_nil.
Qed.

(** A run of X11. *)
Lemma analyze_nothing_without_top_k_witness :
  analyze ascii_db 0 5 rust_items = ([], ∅).
Proof. apply (analyze_nothing_without_top_k ascii_db 0 5 rust_items). lia. Defined.

(** ** The channel resolver, further *)

Section channel_more.
Context (U : unicode_db).
Implicit Types (s raw cur pre post : str) (p : char → bool).

Lemma drop_while_app p s t :
  drop_while p (s ++ t)
  = match drop_while p s with [] => drop_while p t | _ => drop_while p s ++ t end.
Proof.
  induction s as [|c r IH]; simpl; [by destruct (drop_while p t)|].
  destruct (p c); [apply IH | done].
Qed.

Lemma lstrip_spaces_app pre s :
  Forall (λ c, isspace U c = true) pre → lstrip U (pre ++ s) = lstrip U s.
Proof.
  intros Hpre. unfold lstrip. rewrite drop_while_app.
  by rewrite (drop_while_all _ _ Hpre).
Qed.

Lemma rstrip_app_spaces s post :
  Forall (λ c, isspace U c = true) post → rstrip U (s ++ post) = rstrip U s.
Proof.
  intros Hpost. unfold rstrip. rewrite reverse_app.
  rewrite lstrip_spaces_app; [done | by apply Forall_reverse].
Qed.

Lemma rstrip_nil : rstrip U [] = [].
Proof. done. Qed.

(** [strip] does not see whitespace around its argument. *)
Lemma strip_spaces_around pre s post :
  Forall (λ c, isspace U c = true) pre → Forall (λ c, isspace U c = true) post →
  strip U (pre ++ s ++ post) = strip U s.
Proof.
  intros Hpre Hpost. unfold strip. rewrite lstrip_spaces_app by done.
  unfold lstrip at 1. rewrite drop_while_app. fold (lstrip U s).
  destruct (lstrip U s) as [|x l] eqn:Hs.
  - by rewrite (drop_while_all _ _ Hpost).
  - by rewrite rstrip_app_spaces.
Qed.

Lemma split_from_tokens cur s :
  Forall (λ c, isspace U c = false) cur →
  Forall (λ t, t ≠ [] ∧ Forall (λ c, isspace U c = false) t) (split_from U cur s).
Proof.
  revert cur. induction s as [|c r IH]; intros cur Hcur; simpl.
  - case_bool_decide; [constructor|]. by repeat constructor.
  - destruct (isspace U c) eqn:Hc.
    + case_bool_decide; [by apply IH|]. constructor; [done | by apply IH].
    + apply IH. apply Forall_app. split; [done|]. by repeat constructor.
Qed.

Lemma id_rest_plain c :
  id_rest c = true → is_ascii c = true ∧ isspace U c = false
                     ∧ isword U c = true ∧ ascii_upper c = c.
Proof.
  unfold id_rest, is_upper_AZ, is_digit_09, in_range. intros Hc.
  assert (Hr : (65 ≤ c ≤ 90 ∨ 48 ≤ c ≤ 57)%N).
  { rewrite orb_true_iff, !andb_true_iff, !N.leb_le in Hc. lia. }
  assert (Ha : is_ascii c = true) by (unfold is_ascii; apply N.ltb_lt; lia).
  unfold isspace, isword. rewrite Ha. split_and!; [done| | |].
  - unfold ascii_isspace, in_range.
    rewrite !orb_false_iff, !andb_false_iff, !N.leb_gt, N.eqb_neq. lia.
  - unfold ascii_isword, is_upper_AZ, is_lower_az, is_digit_09, in_range.
    rewrite !orb_true_iff, !andb_true_iff, !N.leb_le. lia.
  - unfold ascii_upper, is_lower_az, in_range.
    destruct (97 <=? c)%N eqn:E; [|done]. apply N.leb_le in E. lia.
Qed.

Lemma id_first_rest c : id_first c = true → id_rest c = true.
Proof.
  unfold id_first. intros [->%N.eqb_eq| ->%N.eqb_eq]%orb_true_iff; reflexivity.
Qed.

Lemma greedy_all p s : Forall (λ c, p c = true) s → greedy p s = length s.
Proof. induction 1 as [|c r Hc _ IH]; simpl; [done|]. by rewrite Hc, IH. Qed.

(** A string of the shape of an identifier is matched whole by [ID_RE]. *)
Lemma ID_RE_whole c rest :
  id_first c = true → Forall (λ x, id_rest x = true) rest → 8 ≤ length rest →
  ID_RE U None (c :: rest) = Some (S (length rest)).
Proof.
  intros Hc Hrest Hlen. unfold ID_RE.
  pose proof (id_rest_plain c (id_first_rest c Hc)) as (_ & _ & Hw & _).
  unfold word_boundary at 1. cbn [isword_at]. rewrite Hw, Hc. cbn [xorb andb].
  rewrite (greedy_all _ _ Hrest).
  assert (Hok : word_boundary U (last (take (S (length rest)) (c :: rest)))
                  (rest !! length rest) = true).
  { rewrite (lookup_ge_None_2 rest) by lia.
    rewrite take_ge by (simpl; lia).
    destruct (last (c :: rest)) as [x|] eqn:Hlast.
    - assert (Hx : id_rest x = true).
      { apply last_Some_elem_of in Hlast. apply elem_of_cons in Hlast as [->|Hin].
        - by apply id_first_rest.
        - rewrite Forall_forall in Hrest. by apply Hrest. }
      apply id_rest_plain in Hx as (_ & _ & Hx & _).
      unfold word_boundary. cbn [isword_at]. by rewrite Hx.
    - by apply last_None in Hlast. }
  destruct (length rest) as [|n] eqn:Hn; [lia|]. cbn [backtrack].
  destruct (Nat.ltb_spec (S n) 8); [lia|]. by rewrite Hok.
Qed.
End channel_more.

(** X12. A bare identifier, [C] or [G] followed by at least eight
    characters of [[A-Z0-9]], resolves to itself. *)
Theorem resolve_channel_id_identifier_fixed (U : unicode_db) (c : char) (rest : str) :
  id_first c = true → Forall (λ x, id_rest x = true) rest → 8 ≤ length rest →
  resolve_channel_id U (c :: rest) = inr (c :: rest).
Proof.
  intros Hc Hrest Hlen.
  assert (Hall : Forall (λ x, id_rest x = true) (c :: rest)).
  { constructor; [by apply id_first_rest | done]. }
  assert (Hnosp : ∀ x, x ∈ c :: rest → isspace U x = false).
  { intros x Hx. rewrite Forall_forall in Hall. by apply id_rest_plain, Hall. }
  assert (Hstrip : strip U (c :: rest) = c :: rest).
  { unfold strip, rstrip, lstrip. rewrite (drop_while_none _ (c :: rest)) by done.
    rewrite drop_while_none; [apply reverse_involutive|].
    intros x Hx. rewrite elem_of_reverse in Hx. by apply Hnosp. }
  assert (Hup : str_upper U (c :: rest) = c :: rest).
  { unfold str_upper. replace (forallb is_ascii (c :: rest)) with true.
    - rewrite <- (list_fmap_id (c :: rest)) at 2. apply Forall_fmap_ext_1.
      eapply Forall_impl; [exact Hall|]. intros x Hx. by apply (id_rest_plain U).
    - symmetry. apply forallb_Forall. eapply Forall_impl; [exact Hall|].
      intros x Hx. by apply (id_rest_plain U). }
  unfold resolve_channel_id, truthy. rewrite bool_decide_eq_false_2 by done.
  cbn [negb]. cbv zeta. rewrite Hstrip, Hup. unfold search. cbn [search_from].
  rewrite ID_RE_whole by done. f_equal. apply take_ge. simpl. lia.
Qed.

(** A run of X12. *)
Lemma resolve_channel_id_identifier_fixed_witness :
  resolve_channel_id ascii_db (lit "G0ABCDEFGH") = inr (lit "G0ABCDEFGH").
Proof.
  apply (resolve_channel_id_identifier_fixed ascii_db 71%N (lit "0ABCDEFGH")).
  - reflexivity.
  - vm_compute. repeat constructor.
  - vm_compute. repeat constructor.
Defined.

(** X13. Whatever [resolve_channel_id] returns is not empty and holds no
    whitespace. *)
Theorem resolve_channel_id_result_shape (U : unicode_db) (raw name : str) :
  resolve_channel_id U raw = inr name →
  name ≠ [] ∧ Forall (λ c, isspace U c = false) name.
Proof.
  unfold resolve_channel_id. destruct (negb (truthy raw)); [done|]. cbv zeta.
  destruct (search _ _) as [m|] eqn:Hm.
  - intros [= <-]. apply search_from_match in Hm as (prev & s & n & Hn & ->).
    apply ID_RE_match in Hn as (c & rest & -> & Hc & Hrest & _). split; [done|].
    constructor; [by apply id_rest_plain, id_first_rest|].
    eapply Forall_impl; [exact Hrest|]. intros x Hx. by apply id_rest_plain.
  - destruct (split U _) as [|t ts] eqn:Hsplit; [done|]. intros [= <-].
    pose proof (split_from_tokens U [] (lstrip_chars (lit "#") (strip U raw))
                  ltac:(constructor)) as Hall.
    unfold split in Hsplit. rewrite Hsplit in Hall. by apply Forall_cons in Hall as [? _].
Qed.

(** A run of X13. *)
Lemma resolve_channel_id_result_shape_witness :
  lit "general" ≠ [] ∧ Forall (λ c, isspace ascii_db c = false) (lit "general").
Proof.
  apply (resolve_channel_id_result_shape ascii_db (lit " #  general  chat ")).
  vm_compute. reflexivity.
Defined.

(** X14. Whitespace around the channel reference does not change what
    [resolve_channel_id] answers. *)
Theorem resolve_channel_id_ignores_outer_space (U : unicode_db) (pre raw post : str) :
  raw ≠ [] →
  Forall (λ c, isspace U c = true) pre → Forall (λ c, isspace U c = true) post →
  resolve_channel_id U (pre ++ raw ++ post) = resolve_channel_id U raw.
Proof.
  intros Hraw Hpre Hpost. unfold resolve_channel_id, truthy.
  rewrite (bool_decide_eq_false_2 (raw = [])) by done.
  rewrite bool_decide_eq_false_2.
  - cbn [negb]. cbv zeta. by rewrite strip_spaces_around.
  - intros Hnil. apply app_eq_nil in Hnil as [_ Hnil].
    by apply app_eq_nil in Hnil as [? _].
Qed.

(** A run of X14. *)
Lemma resolve_channel_id_ignores_outer_space_witness :
  resolve_channel_id ascii_db (lit "  " ++ lit "#general" ++ lit " ")
  = resolve_channel_id ascii_db (lit "#general").
Proof.
  apply (resolve_channel_id_ignores_outer_space ascii_db).
  - discriminate.
  - vm_compute. repeat constructor.
  - vm_compute. repeat constructor.
Defined.

(** ** The index of past runs *)

Section index_more.
Context (w : world).
Implicit Types (date rel : str) (base : list str) (tr : list event).

Lemma save_markdown_run top related date tr :
  save_markdown w top related date tr
  = (tr ++ [MkdirDocs; WriteDigest (lit "docs/" ++ date ++ lit ".md") top related;
            WriteIndex (index_insert (index_entry date) (index_base w))],
     inr (lit "docs/" ++ date ++ lit ".md")).
Proof.
  unfold save_markdown, mbind, io_bind, emit, mret, io_ret. simpl.
  by rewrite <- !app_assoc.
Qed.

Lemma index_insert_elem rel base : rel ∈ index_insert rel base.
Proof.
  unfold index_insert. case_bool_decide; [done|].
  apply elem_of_app. right. by left.
Qed.

Lemma index_insert_sublist rel base : base `sublist_of` index_insert rel base.
Proof.
  unfold index_insert. case_bool_decide; [done|].
  rewrite <- (take_drop 2 base) at 1. apply sublist_app; [done|]. by apply sublist_cons.
Qed.

Lemma index_insert_new rel base :
  rel ∉ base →
  length (index_insert rel base) = S (length base)
  ∧ index_insert rel base !! (2 `min` length base) = Some rel
  ∧ take (2 `min` length base) (index_insert rel base) = take 2 base.
Proof.
  intros Hnew. unfold index_insert. rewrite bool_decide_eq_false_2 by done.
  split_and!.
  - rewrite length_app, length_cons, length_take, length_drop. lia.
  - apply list_lookup_middle. by rewrite length_take.
  - replace (2 `min` length base) with (length (take 2 base)) by (by rewrite length_take).
    apply take_app_length.
Qed.

Lemma index_insert_again rel base :
  index_insert rel (index_insert rel base) = index_insert rel base.
Proof.
  unfold index_insert at 1. by rewrite bool_decide_eq_true_2 by apply index_insert_elem.
Qed.
End index_more.

(** X15. [save_markdown] makes the directory, writes the digest and then
    the index; the index it writes holds the entry of the run, keeps every
    line it had in their order, and a new entry goes to the third line,
    below the two lines of the header (at the end of a shorter file). *)
Theorem save_markdown_index
    (w : world) (top : counter) (related : gmap str (list item)) (date : str)
    (tr : list event) :
  ∃ lines,
    save_markdown w top related date tr
    = (tr ++ [MkdirDocs; WriteDigest (lit "docs/" ++ date ++ lit ".md") top related;
              WriteIndex lines],
       inr (lit "docs/" ++ date ++ lit ".md"))
    ∧ index_entry date ∈ lines
    ∧ index_base w `sublist_of` lines
    ∧ (index_entry date ∈ index_base w → lines = index_base w)
    ∧ (index_entry date ∉ index_base w →
         length lines = S (length (index_base w))
         ∧ lines !! (2 `min` length (index_base w)) = Some (index_entry date)
         ∧ take (2 `min` length (index_base w)) lines = take 2 (index_base w)).
Proof.
  exists (index_insert (index_entry date) (index_base w)). split_and!.
  - apply save_markdown_run.
  - apply index_insert_elem.
  - apply index_insert_sublist.
  - intros Hin. unfold index_insert. by rewrite bool_decide_eq_true_2.
  - apply index_insert_new.
Qed.

Section reread.
Implicit Types (l cur s : str) (lines : list str).

Lemma splitlines_from_line cur l s :
  Forall (λ c, is_linebreak c = false) l →
  splitlines_from false cur (l ++ s) = splitlines_from false (cur ++ l) s.
Proof.
  intros Hl. revert cur. induction Hl as [|c l Hc _ IH]; intros cur.
  - by rewrite app_nil_r.
  - cbn [app splitlines_from andb]. rewrite Hc, IH. by rewrite <- app_assoc.
Qed.

(** Reading back what was written: the lines, without a last empty one. *)
Lemma splitlines_join lines :
  Forall (Forall (λ c, is_linebreak c = false)) lines →
  splitlines (join_lines lines) = drop_last_empty lines.
Proof.
  induction 1 as [|l rest Hl Hrest IH]; [done|].
  destruct rest as [|l' rest]; unfold splitlines in *.
  - cbn [join_lines drop_last_empty]. rewrite <- (app_nil_r l) at 1.
    by rewrite splitlines_from_line.
  - change (join_lines (l :: l' :: rest)) with (l ++ 10%N :: join_lines (l' :: rest)).
    change (drop_last_empty (l :: l' :: rest)) with (l :: drop_last_empty (l' :: rest)).
    rewrite splitlines_from_line by done.
    change (splitlines_from false ([] ++ l) (10%N :: join_lines (l' :: rest)))
      with (l :: splitlines_from false [] (join_lines (l' :: rest))).
    by rewrite IH.
Qed.

Lemma drop_last_empty_filter (x : str) lines :
  x ≠ [] → filter (λ l, l = x) (drop_last_empty lines) = filter (λ l, l = x) lines.
Proof.
  intros Hx. induction lines as [|l rest IH]; [done|].
  destruct rest as [|l' rest]; cbn [drop_last_empty].
  - case_bool_decide as Hl; [|done]. subst l. by rewrite filter_cons_False by congruence.
  - destruct (decide (l = x)).
    + rewrite !(filter_cons_True _ l) by done. f_equal. exact IH.
    + rewrite !(filter_cons_False _ l) by done. exact IH.
Qed.

Lemma drop_last_empty_elem (x : str) lines :
  x ≠ [] → x ∈ lines → x ∈ drop_last_empty lines.
Proof.
  intros Hx Hin.
  assert (Hf : x ∈ filter (λ l, l = x) lines) by (by apply list_elem_of_filter).
  rewrite <- drop_last_empty_filter in Hf by done.
  by apply list_elem_of_filter in Hf as [_ ?].
Qed.

Lemma index_entry_line date :
  Forall (λ c, is_linebreak c = false) date →
  index_entry date ≠ [] ∧ Forall (λ c, is_linebreak c = false) (index_entry date).
Proof.
  intros Hd. split; [done|]. unfold index_entry.
  repeat (apply Forall_app; split); try done; vm_compute; repeat constructor.
Qed.

Lemma index_insert_lines rel base :
  Forall (λ c, is_linebreak c = false) rel →
  Forall (Forall (λ c, is_linebreak c = false)) base →
  Forall (Forall (λ c, is_linebreak c = false)) (index_insert rel base).
Proof.
  intros Hrel Hbase. unfold index_insert. case_bool_decide; [done|].
  apply Forall_app. split; [by apply Forall_take|].
  constructor; [done | by apply Forall_drop].
Qed.
End reread.

(** X16. A second run on the same date, which reads back the file the
    first run wrote, does not add the entry of the date again: it writes
    the lines of the first run, without the last line when that one is
    empty, and the entry is there as often as before. *)
Theorem save_markdown_rerun_adds_no_entry
    (w : world) (top top' : counter) (related related' : gmap str (list item))
    (date : str) (tr tr' : list event) :
  Forall (Forall (λ c, is_linebreak c = false)) (index_base w) →
  Forall (λ c, is_linebreak c = false) date →
  ∃ lines lines',
    save_markdown w top related date tr
    = (tr ++ [MkdirDocs; WriteDigest (lit "docs/" ++ date ++ lit ".md") top related;
              WriteIndex lines],
       inr (lit "docs/" ++ date ++ lit ".md"))
    ∧ save_markdown (with_index w lines) top' related' date tr'
      = (tr' ++ [MkdirDocs; WriteDigest (lit "docs/" ++ date ++ lit ".md") top' related';
                 WriteIndex lines'],
         inr (lit "docs/" ++ date ++ lit ".md"))
    ∧ lines' = drop_last_empty lines
    ∧ index_entry date ∈ lines'
    ∧ length (filter (λ l, l = index_entry date) lines')
      = length (filter (λ l, l = index_entry date) lines).
Proof.
  intros Hbase Hdate. destruct (index_entry_line date Hdate) as [Hne Hentry].
  exists (index_insert (index_entry date) (index_base w)),
         (drop_last_empty (index_insert (index_entry date) (index_base w))).
  assert (Hin : index_entry date
                ∈ drop_last_empty (index_insert (index_entry date) (index_base w))).
  { apply drop_last_empty_elem; [done | apply index_insert_elem]. }
  split_and!.
  - apply save_markdown_run.
  - rewrite save_markdown_run.
    change (index_base (with_index w (index_insert (index_entry date) (index_base w))))
      with (splitlines (join_lines (index_insert (index_entry date) (index_base w)))).
    rewrite splitlines_join by (by apply index_insert_lines).
    unfold index_insert at 1. by rewrite bool_decide_eq_true_2.
  - done.
  - done.
  - by rewrite drop_last_empty_filter.
Qed.

(** A run of X16 on an index that ends with an empty line: the second
    run writes one line less, the entry once. *)
Lemma save_markdown_rerun_adds_no_entry_witness :
  ∃ lines lines',
    save_markdown world_old_index [] ∅ (lit "2025-01-06") []
    = ([] ++ [MkdirDocs; WriteDigest (lit "docs/" ++ lit "2025-01-06" ++ lit ".md") [] ∅;
              WriteIndex lines],
       inr (lit "docs/" ++ lit "2025-01-06" ++ lit ".md"))
    ∧ save_markdown (with_index world_old_index lines) [] ∅ (lit "2025-01-06") []
      = ([] ++ [MkdirDocs; WriteDigest (lit "docs/" ++ lit "2025-01-06" ++ lit ".md") [] ∅;
                WriteIndex lines'],
         inr (lit "docs/" ++ lit "2025-01-06" ++ lit ".md"))
    ∧ lines' = drop_last_empty lines
    ∧ index_entry (lit "2025-01-06") ∈ lines'
    ∧ length (filter (λ l, l = index_entry (lit "2025-01-06")) lines')
      = length (filter (λ l, l = index_entry (lit "2025-01-06")) lines).
Proof.
  apply (save_markdown_rerun_adds_no_entry world_old_index [] [] ∅ ∅ (lit "2025-01-06") [] []).
  - vm_compute. repeat constructor.
  - vm_compute. repeat constructor.
Defined.

Example index_rerun_drops_last_empty_line :
  index_insert (index_entry (lit "2025-01-06")) (index_base world_old_index)
  = [lit "A"; []; lit "- [2025-01-06](./2025-01-06.html)";
     lit "- [2024-12-30](./2024-12-30.html)"; []]
  ∧ index_insert (index_entry (lit "2025-01-06"))
      (index_base (with_index world_old_index
         (index_insert (index_entry (lit "2025-01-06")) (index_base world_old_index))))
    = [lit "A"; []; lit "- [2025-01-06](./2025-01-06.html)";
       lit "- [2024-12-30](./2024-12-30.html)"].
Proof. split; vm_compute; reflexivity. Qed.

(** ** The parsers *)

Section parsers_more.
Context (U : unicode_db).
Implicit Types (page : html_page) (items : list item).

Lemma dedup_Forall (P : item → Prop) items : Forall P items → Forall P (dedup U items).
Proof.
  rewrite !Forall_forall. intros HP it Hit. apply HP.
  eapply elem_of_sublist; [exact Hit|]. rewrite dedup_unfold. apply dedup_from_sublist.
Qed.

Lemma dedup_NoDup items : NoDup (dedup_key U <$> dedup U items).
Proof. rewrite dedup_unfold. apply dedup_from_NoDup. Qed.

Lemma startswith_app (p s : str) : startswith p (p ++ s) = true.
Proof. unfold startswith. apply bool_decide_eq_true_2. by rewrite take_app_length. Qed.

Lemma truthy_ne (s : str) : truthy s = true ↔ s ≠ [].
Proof. unfold truthy. by rewrite negb_true_iff, bool_decide_eq_false. Qed.

Lemma Forall_omap {A B} (P : B → Prop) (f : A → option B) (l : list A) :
  (∀ a b, f a = Some b → P b) → Forall P (omap f l).
Proof.
  intros Hf. induction l as [|a l IH]; simpl; [constructor|].
  destruct (f a) as [b|] eqn:Hb; [|done]. constructor; eauto.
Qed.

Lemma omap_length_le {A B} (f : A → option B) (l : list A) :
  length (omap f l) ≤ length l.
Proof.
  induction l as [|a l IH]; [done|].
  change (omap f (a :: l))
    with (match f a with Some y => y :: omap f l | None => omap f l end).
  destruct (f a); simpl; lia.
Qed.

(** The pairs that the loop of [parse_qiita_trend] reads, or the anchor
    that makes it raise. *)
Lemma qiita_links (anchors : list anchor) :
  match mapM (M := result) (λ a,
          match a_href a with
          | Some href => inr (a_text a, lit "https://qiita.com" ++ href)
          | None => inl TypeError
          end) anchors with
  | inr pairs =>
      Forall (λ tl : str * str, startswith (lit "https://qiita.com") tl.2 = true) pairs
      ∧ Forall (λ a, is_Some (a_href a)) anchors
  | inl e => e = TypeError ∧ Exists (λ a, a_href a = None) anchors
  end.
Proof.
  induction anchors as [|a l IH]; cbn [mapM].
  - split; constructor.
  - destruct (a_href a) as [href|] eqn:Ha; cbn [mbind result_bind].
    + destruct (mapM _ l) as [e|pairs]; cbn [mbind result_bind mret result_ret].
      * destruct IH as [-> IH]. split; [done|]. by apply Exists_cons_tl.
      * destruct IH as [IH1 IH2]. split.
        -- constructor; [apply startswith_app | done].
        -- constructor; [by rewrite Ha | done].
    + split; [done|]. by apply Exists_cons_hd.
Qed.
End parsers_more.

(** X17. [parse_qiita_trend] raises only when an anchor has no [href],
    and then a [TypeError]; else every item it returns is from ["Qiita"],
    has a title that is not empty and a link that starts with
    ["https://qiita.com"], and no two items have the same key. *)
Theorem parse_qiita_trend_items (U : unicode_db) (page : html_page) :
  match parse_qiita_trend U page with
  | inr items =>
      Forall (λ a, is_Some (a_href a)) (sel_articles page)
      ∧ Forall (λ it, item_source it = lit "Qiita" ∧ item_title it ≠ []
                      ∧ startswith (lit "https://qiita.com") (item_link it) = true) items
      ∧ NoDup (dedup_key U <$> items)
  | inl e => e = TypeError ∧ Exists (λ a, a_href a = None) (sel_articles page)
  end.
Proof.
  unfold parse_qiita_trend. pose proof (qiita_links (sel_articles page)) as Hl.
  destruct (mapM _ (sel_articles page)) as [e|pairs]; cbn [mbind result_bind]; [done|].
  destruct Hl as [Hpairs Hanchors]. split_and!; [done| |apply dedup_NoDup].
  apply dedup_Forall, Forall_fmap, Forall_forall. intros tl Htl.
  apply list_elem_of_filter in Htl as [Ht Htl]. apply andb_prop_elim in Ht as [Ht _].
  rewrite Forall_forall in Hpairs. split_and!; [done| |by apply Hpairs].
  apply truthy_ne. by apply Is_true_true.
Qed.

(** X18. Every item of [parse_stackoverflow_hot] is from
    ["StackOverflow"] and has an absolute link: one that starts with
    ["http"]; anchors without [href] are skipped, and no two items have the
    same key. *)
Theorem parse_stackoverflow_hot_items (U : unicode_db) (page : html_page) :
  Forall (λ it, item_source it = lit "StackOverflow"
                ∧ startswith (lit "http") (item_link it) = true
                ∧ item_link it ≠ [])
         (parse_stackoverflow_hot U page)
  ∧ NoDup (dedup_key U <$> parse_stackoverflow_hot U page)
  ∧ length (parse_stackoverflow_hot U page) ≤ length (sel_questions page).
Proof.
  unfold parse_stackoverflow_hot. split_and!; [|apply dedup_NoDup|].
  - apply dedup_Forall, Forall_omap. intros q it Hq.
    destruct (a_href q) as [href|]; [|done].
    destruct (truthy href) eqn:Hh; [|done]. injection Hq as <-.
    unfold item_source, item_link. cbn [fst snd].
    destruct (startswith (lit "http") href) eqn:Hs.
    + split_and!; [done..|]. by apply truthy_ne.
    + split_and!; [done| |done].
      apply (startswith_app (lit "http") (lit "s://stackexchange.com" ++ href)).
  - etrans; [apply sublist_length; rewrite dedup_unfold; apply dedup_from_sublist|].
    apply omap_length_le.
Qed.

(** X19. An item of [parse_github_trending] is from ["GitHubTrending"]
    and is either a repository, with a link that starts with
    ["https://github.com"], or a description, with no link and a text that
    is not empty. *)
Theorem parse_github_trending_items (U : unicode_db) (page : html_page) :
  Forall (λ it, item_source it = lit "GitHubTrending"
                ∧ (startswith (lit "https://github.com") (item_link it) = true
                   ∨ (item_link it = [] ∧ item_title it ≠ [])))
         (parse_github_trending U page)
  ∧ NoDup (dedup_key U <$> parse_github_trending U page).
Proof.
  unfold parse_github_trending. split; [|apply dedup_NoDup].
  apply dedup_Forall, Forall_app. split; apply Forall_omap.
  - intros repo it Hr. destruct (a_href repo) as [href|]; [|done].
    destruct (truthy href); [|done]. injection Hr as <-.
    split; [done|]. left. apply (startswith_app (lit "https://github.com") href).
  - intros t it Ht. destruct (truthy t) eqn:Htt; [|done]. injection Ht as <-.
    split; [done|]. right. split; [done|]. by apply truthy_ne.
Qed.

(** X20. Every item of [parse_rss_generic] bears the name of the feed and
    a title that is not empty; entries without a title are dropped, and no
    two items have the same key. *)
Theorem parse_rss_generic_items
    (U : unicode_db) (entries : list feed_entry) (source_name : str) :
  Forall (λ it, item_source it = source_name ∧ item_title it ≠ [])
         (parse_rss_generic U entries source_name)
  ∧ NoDup (dedup_key U <$> parse_rss_generic U entries source_name)
  ∧ length (parse_rss_generic U entries source_name) ≤ length entries.
Proof.
  unfold parse_rss_generic. split_and!; [|apply dedup_NoDup|].
  - apply dedup_Forall, Forall_omap. intros e it He. cbv zeta in He.
    destruct (truthy (default [] (e_title e))) eqn:Ht; [|done]. injection He as <-.
    split; [done|]. by apply truthy_ne.
  - etrans; [apply sublist_length; rewrite dedup_unfold; apply dedup_from_sublist|].
    apply omap_length_le.
Qed.

(** ** The run, further *)

Section run_more.
Context (U : unicode_db) (TOP_K POST_LIMIT_PER_SOURCE : Z) (w : world).
Implicit Types (tr evs : list event) (items : list item) (ss : list source).

Lemma collect_html_trace ss items tr :
  collect_html U w ss items tr
  = (tr ++ (html_mark U w <$> ss),
     inr (items ++ concat ((λ s, default [] (html_items U w s)) <$> ss))).
Proof.
  revert items tr. induction ss as [|s ss IH]; intros items tr.
  - simpl. unfold mret, io_ret. by rewrite !app_nil_r.
  - cbn [collect_html fmap list_fmap concat]. unfold html_mark at 1.
    destruct (html_items U w s) as [its|]; unfold mbind, io_bind, emit;
      rewrite IH; simpl; by rewrite <- !app_assoc.
Qed.

Lemma collect_rss_trace ss items tr :
  collect_rss U w ss items tr
  = (tr ++ (rss_mark U w <$> ss),
     inr (items ++ concat ((λ s, default [] (rss_items U w s)) <$> ss))).
Proof.
  revert items tr. induction ss as [|s ss IH]; intros items tr.
  - simpl. unfold mret, io_ret. by rewrite !app_nil_r.
  - cbn [collect_rss fmap list_fmap concat]. unfold rss_mark at 1.
    destruct (rss_items U w s) as [its|]; unfold mbind, io_bind, emit;
      rewrite IH; simpl; by rewrite <- !app_assoc.
Qed.

Lemma thread_event_ok_mono cid related (keys keys' : list str) e :
  (∀ k, k ∈ keys → k ∈ keys') →
  thread_event_ok w cid related keys e → thread_event_ok w cid related keys' e.
Proof.
  intros Hsub. destruct e as [[]| | | | | |]; simpl; try done.
  - intros [? ?]. auto.
  - intros (? & ? & ? & ?). auto.
Qed.

(** The threads: every post is tried, none raises. *)
Lemma post_threads_run cid related (top3 : counter) tr :
  ∃ thr, post_threads w cid related top3 tr = (tr ++ thr, inr ())
         ∧ length (filter (λ e, is_thread_post e = true) thr) ≤ length top3
         ∧ Forall (thread_event_ok w cid related top3.*1) thr.
Proof.
  revert tr. induction top3 as [|[k n] rest IH]; intros tr.
  - exists []. simpl. unfold mret, io_ret. rewrite app_nil_r. split_and!; [done..|constructor].
  - cbn [post_threads]. rewrite fmap_cons. cbn [fst].
    assert (Hmono : ∀ thr, Forall (thread_event_ok w cid related rest.*1) thr →
                           Forall (thread_event_ok w cid related (k :: rest.*1)) thr).
    { intros thr Hthr. eapply Forall_impl; [exact Hthr|].
      intros e. apply thread_event_ok_mono. intros k' ?. by right. }
    case_bool_decide as Hlinks.
    + destruct (IH tr) as (thr & Hrun & Hlen & Hall). exists thr.
      split_and!; [done| simpl; lia | by apply Hmono].
    + unfold mbind, io_bind, emit. destruct (slack_thread_ok w k) eqn:Hok.
      * unfold mret, io_ret.
        destruct (IH (tr ++ [PostThread cid k (take 5 (default [] (related !! k)))]))
          as (thr & Hrun & Hlen & Hall).
        exists (PostThread cid k (take 5 (default [] (related !! k))) :: thr).
        rewrite Hrun, <- app_assoc. split_and!; [done| |].
        -- rewrite filter_cons_True by done. simpl. lia.
        -- constructor; [|by apply Hmono]. simpl. split_and!; [done|by left|done..].
      * destruct (IH ((tr ++ [PostThread cid k (take 5 (default [] (related !! k)))])
                        ++ [Print (WarnThreadPostFailed k)]))
          as (thr & Hrun & Hlen & Hall).
        exists (PostThread cid k (take 5 (default [] (related !! k)))
                  :: Print (WarnThreadPostFailed k) :: thr).
        rewrite Hrun, <- !app_assoc. split_and!; [done| |].
        -- rewrite filter_cons_True by done. rewrite filter_cons_False by done.
           simpl. lia.
        -- constructor; [simpl; split_and!; [done|by left|done..]|].
           constructor; [simpl; split; [by left|done]|by apply Hmono].
Qed.

(** The threads, in closed form. *)
Lemma post_threads_events cid related (top3 : counter) tr :
  post_threads w cid related top3 tr = (tr ++ thread_events w cid related top3, inr ()).
Proof.
  revert tr. induction top3 as [|[k n] rest IH]; intros tr.
  - simpl. unfold mret, io_ret. by rewrite app_nil_r.
  - cbn [post_threads]. unfold thread_events. rewrite fmap_cons. cbn [concat fst].
    fold (thread_events w cid related rest). case_bool_decide as Hlinks.
    + by rewrite IH.
    + unfold mbind, io_bind, emit. destruct (slack_thread_ok w k);
        unfold mret, io_ret; rewrite IH; by rewrite <- !app_assoc.
Qed.

(** Every keyword that has links gets its thread, whatever happened to
    the threads before it; a refused one leaves its warning. *)
Lemma thread_events_elem cid related (top3 : counter) k n ev :
  (k, n) ∈ top3 → related !! k = Some ev → ev ≠ [] →
  PostThread cid k (take 5 ev) ∈ thread_events w cid related top3
  ∧ (slack_thread_ok w k = false →
     Print (WarnThreadPostFailed k) ∈ thread_events w cid related top3).
Proof.
  intros Hin Hev Hne. induction top3 as [|[k' n'] rest IH]; [by apply elem_of_nil in Hin|].
  unfold thread_events. rewrite fmap_cons. cbn [concat fst].
  fold (thread_events w cid related rest). rewrite !elem_of_app.
  apply elem_of_cons in Hin as [[= <- <-]|Hin].
  - rewrite Hev. cbn [default from_option id].
    rewrite bool_decide_eq_false_2 by (by destruct ev).
    split; [left; by left|]. intros ->. left. right. by left.
  - destruct (IH Hin) as [IH1 IH2]. split; [by right|]. intros ?. right. by apply IH2.
Qed.

Lemma analyze_nil :
  (analyze U TOP_K POST_LIMIT_PER_SOURCE []).1 = [].
Proof. unfold analyze, most_common. simpl. apply take_nil. Qed.

End run_more.

Section outcomes.
Context (U : unicode_db) (TOP_K POST_LIMIT_PER_SOURCE : Z) (w : world).

(** [main] up to the call of [post_to_slack], in the words of the run. *)
Lemma main_digest_written tok chan :
  environ w "SLACK_BOT_TOKEN" = Some tok → tok ≠ [] →
  environ w "SLACK_CHANNEL_ID" = Some chan → chan ≠ [] →
  run_top U TOP_K POST_LIMIT_PER_SOURCE w ≠ [] →
  ∃ evs, quiet evs ∧
    run_main U TOP_K POST_LIMIT_PER_SOURCE w
    = (_ ← post_to_slack U w (run_top U TOP_K POST_LIMIT_PER_SOURCE w)
             (run_related U TOP_K POST_LIMIT_PER_SOURCE w);
       emit (Print Done))
        (evs ++ digest_events U TOP_K POST_LIMIT_PER_SOURCE w).
Proof.
  intros Htok Htok' Hchan Hchan' Htop.
  destruct (main_after_collect U TOP_K POST_LIMIT_PER_SOURCE w tok chan)
    as (evs & Hq & Hrun); [done..|].
  exists evs. split; [done|]. rewrite Hrun. clear Hrun.
  unfold digest_events, run_top, run_related in *.
  rewrite bool_decide_eq_false_2.
  - destruct (analyze U TOP_K POST_LIMIT_PER_SOURCE (concat (contributions U w)))
      as [top related]. simpl in *.
    rewrite bool_decide_eq_false_2 by done.
    unfold mbind at 1, io_bind at 1. by rewrite save_markdown_run.
  - intros Hnil. rewrite Hnil in Htop. by rewrite analyze_nil in Htop.
Qed.
End outcomes.

(** X21. Without one of the two required values in the environment,
    empty counting as missing, [main] raises a [RuntimeError] at once:
    nothing is fetched, written or posted. *)
Theorem main_requires_env
    (U : unicode_db) (TOP_K POST_LIMIT_PER_SOURCE : Z) (w : world) :
  env_ready w = false →
  ∃ msg, run_main U TOP_K POST_LIMIT_PER_SOURCE w = ([], inl (RuntimeError msg)).
Proof.
  unfold env_ready, run_main, main. intros Henv.
  unfold mbind at 1, io_bind at 1. unfold must_env at 1.
  destruct (environ w "SLACK_BOT_TOKEN") as [tok|]; [|eauto].
  destruct (truthy tok) eqn:Htok; [|eauto].
  unfold mret at 1, io_ret at 1.
  unfold mbind at 1, io_bind at 1. unfold must_env at 1.
  destruct (environ w "SLACK_CHANNEL_ID") as [chan|]; [|eauto].
  destruct (truthy chan) eqn:Hchan; [|eauto].
  change (truthy tok && truthy chan = false) in Henv. by rewrite Htok, Hchan in Henv.
Qed.

(** A run of X21: the token is missing. *)
Lemma main_requires_env_witness :
  ∃ msg, run_main ascii_db 10 5 world_no_token = ([], inl (RuntimeError msg)).
Proof. apply (main_requires_env ascii_db 10 5 world_no_token). reflexivity. Defined.

(** X22. The fetch loops never raise and leave one event per source, the
    HTML sources first: a pause after a source that was read, a warning
    for a source that failed; the items they hand over are the
    contributions of the sources, in that order. *)
Theorem collect_trace (U : unicode_db) (w : world) (tr : list event) :
  collect U w tr
  = (tr ++ (html_mark U w <$> html_sources (sources_yaml w))
        ++ (rss_mark U w <$> rss_sources (sources_yaml w)),
     inr (concat (contributions U w))).
Proof.
  unfold collect, contributions. unfold mbind, io_bind.
  rewrite collect_html_trace, collect_rss_trace. simpl.
  by rewrite concat_app, app_assoc.
Qed.

(** X23. When the channel reference cannot be resolved, a run that has
    keywords still writes the digest and the index first; then the error
    of [resolve_channel_id] leaves [main], and nothing is posted. *)
Theorem main_channel_error
    (U : unicode_db) (TOP_K POST_LIMIT_PER_SOURCE : Z) (w : world)
    (tok chan : str) (e : exn) :
  environ w "SLACK_BOT_TOKEN" = Some tok → tok ≠ [] →
  environ w "SLACK_CHANNEL_ID" = Some chan → chan ≠ [] →
  run_top U TOP_K POST_LIMIT_PER_SOURCE w ≠ [] →
  resolve_channel_id U chan = inl e →
  ∃ evs, quiet evs ∧
    run_main U TOP_K POST_LIMIT_PER_SOURCE w
    = (evs ++ digest_events U TOP_K POST_LIMIT_PER_SOURCE w, inl e).
Proof.
  intros Htok Htok' Hchan Hchan' Htop Hres.
  destruct (main_digest_written U TOP_K POST_LIMIT_PER_SOURCE w tok chan)
    as (evs & Hq & Hrun); [done..|].
  exists evs. split; [done|]. rewrite Hrun.
  unfold mbind, io_bind, post_to_slack. rewrite Hchan.
  change (default [] (Some chan)) with chan. by rewrite Hres.
Qed.

(** A run of X23: the channel is a lone [#]. *)
Lemma main_channel_error_witness :
  ∃ evs, quiet evs ∧
    run_main ascii_db 10 5 world_bad_channel
    = (evs ++ digest_events ascii_db 10 5 world_bad_channel, inl IndexError).
Proof.
  apply (main_channel_error ascii_db 10 5 world_bad_channel (lit "xoxb-token") (lit "#")).
  - reflexivity.
  - discriminate.
  - reflexivity.
  - discriminate.
  - vm_compute. discriminate.
  - vm_compute. reflexivity.
Defined.

(** X24. When the parent message is refused, [main] raises a
    [RuntimeError] that carries the error of the refusal, after the digest
    and the index were written and the one post was tried; no thread is
    posted. *)
Theorem main_parent_post_failure
    (U : unicode_db) (TOP_K POST_LIMIT_PER_SOURCE : Z) (w : world)
    (tok chan channel_id : str) :
  environ w "SLACK_BOT_TOKEN" = Some tok → tok ≠ [] →
  environ w "SLACK_CHANNEL_ID" = Some chan → chan ≠ [] →
  run_top U TOP_K POST_LIMIT_PER_SOURCE w ≠ [] →
  resolve_channel_id U chan = inr channel_id →
  slack_parent_ok w = false →
  ∃ evs, quiet evs ∧
    run_main U TOP_K POST_LIMIT_PER_SOURCE w
    = (evs ++ digest_events U TOP_K POST_LIMIT_PER_SOURCE w
           ++ [PostParent channel_id (run_top U TOP_K POST_LIMIT_PER_SOURCE w)],
       inl (RuntimeError (lit "chat.postMessage failed: "
                          ++ default (lit "None") (slack_parent_error w)))).
Proof.
  intros Htok Htok' Hchan Hchan' Htop Hres Hparent.
  destruct (main_digest_written U TOP_K POST_LIMIT_PER_SOURCE w tok chan)
    as (evs & Hq & Hrun); [done..|].
  exists evs. split; [done|]. rewrite Hrun.
  unfold post_to_slack. rewrite Hchan.
  change (default [] (Some chan)) with chan. rewrite Hres.
  unfold mbind, io_bind, emit, raise. rewrite Hparent. by rewrite <- app_assoc.
Qed.

(** A run of X24. *)
Lemma main_parent_post_failure_witness :
  ∃ evs, quiet evs ∧
    run_main ascii_db 10 5 world_slack_down
    = (evs ++ digest_events ascii_db 10 5 world_slack_down
           ++ [PostParent (lit "C12345678") (run_top ascii_db 10 5 world_slack_down)],
       inl (RuntimeError (lit "chat.postMessage failed: channel_not_found"))).
Proof.
  apply (main_parent_post_failure ascii_db 10 5 world_slack_down
           (lit "xoxb-token") (lit "C12345678 # main channel")).
  - reflexivity.
  - discriminate.
  - reflexivity.
  - discriminate.
  - vm_compute. discriminate.
  - vm_compute. reflexivity.
  - reflexivity.
Defined.

(** X25. When the channel resolves and the parent message is accepted, a
    run that has keywords writes the digest and the index, posts the
    parent, then goes through the first three keywords in turn: each one
    that has links gets a thread with its first five links, a refused
    thread leaves a warning right after it and stops nothing; then the
    run prints its last line and returns.  So there are at most three
    threads, each with one to five links. *)
Theorem main_posts_parent_then_threads
    (U : unicode_db) (TOP_K POST_LIMIT_PER_SOURCE : Z) (w : world)
    (tok chan channel_id : str) :
  environ w "SLACK_BOT_TOKEN" = Some tok → tok ≠ [] →
  environ w "SLACK_CHANNEL_ID" = Some chan → chan ≠ [] →
  run_top U TOP_K POST_LIMIT_PER_SOURCE w ≠ [] →
  resolve_channel_id U chan = inr channel_id →
  slack_parent_ok w = true →
  ∃ evs thr, quiet evs ∧
    run_main U TOP_K POST_LIMIT_PER_SOURCE w
    = (evs ++ digest_events U TOP_K POST_LIMIT_PER_SOURCE w
           ++ [PostParent channel_id (run_top U TOP_K POST_LIMIT_PER_SOURCE w)]
           ++ thr ++ [Print Done],
       inr ())
    ∧ length (filter (λ e, is_thread_post e = true) thr) ≤ 3
    ∧ Forall (thread_event_ok w channel_id (run_related U TOP_K POST_LIMIT_PER_SOURCE w)
                (take 3 (run_top U TOP_K POST_LIMIT_PER_SOURCE w)).*1) thr
    ∧ Forall (λ e, match e with PostThread _ _ links => 1 ≤ length links ≤ 5 | _ => True end)
             thr
    ∧ thr = thread_events w channel_id (run_related U TOP_K POST_LIMIT_PER_SOURCE w)
              (take 3 (run_top U TOP_K POST_LIMIT_PER_SOURCE w))
    ∧ ∀ k n ev,
        (k, n) ∈ take 3 (run_top U TOP_K POST_LIMIT_PER_SOURCE w) →
        run_related U TOP_K POST_LIMIT_PER_SOURCE w !! k = Some ev → ev ≠ [] →
        PostThread channel_id k (take 5 ev) ∈ thr
        ∧ (slack_thread_ok w k = false → Print (WarnThreadPostFailed k) ∈ thr).
Proof.
  intros Htok Htok' Hchan Hchan' Htop Hres Hparent.
  destruct (main_digest_written U TOP_K POST_LIMIT_PER_SOURCE w tok chan)
    as (evs & Hq & Hrun); [done..|].
  destruct (post_threads_run w channel_id (run_related U TOP_K POST_LIMIT_PER_SOURCE w)
              (take 3 (run_top U TOP_K POST_LIMIT_PER_SOURCE w))
              ((evs ++ digest_events U TOP_K POST_LIMIT_PER_SOURCE w)
                 ++ [PostParent channel_id (run_top U TOP_K POST_LIMIT_PER_SOURCE w)]))
    as (thr & Hthr & Hlen & Hall).
  assert (Heq : thr = thread_events w channel_id
                        (run_related U TOP_K POST_LIMIT_PER_SOURCE w)
                        (take 3 (run_top U TOP_K POST_LIMIT_PER_SOURCE w))).
  { rewrite post_threads_events in Hthr. injection Hthr as Hthr.
    by apply app_inv_head in Hthr. }
  exists evs, thr. split; [done|]. split_and!.
  - rewrite Hrun. unfold post_to_slack. rewrite Hchan.
    change (default [] (Some chan)) with chan. rewrite Hres.
    unfold mbind, io_bind, emit. rewrite Hparent, Hthr. by rewrite <- !app_assoc.
  - rewrite length_take in Hlen. lia.
  - done.
  - eapply Forall_impl; [exact Hall|]. intros [| | | | | |c k links]; simpl; try done.
    intros (_ & _ & -> & Hne). split; [|rewrite length_take; lia].
    destruct (take 5 _); [done | simpl; lia].
  - done.
  - intros k n ev Hin Hev Hne. rewrite Heq. by eapply thread_events_elem.
Qed.

(** A run of X25 in which every thread is refused: three threads are
    posted all the same, each followed by its warning. *)
Lemma main_posts_parent_then_threads_witness :
  ∃ evs thr, quiet evs ∧
    run_main ascii_db 10 5 world_threads_refused
    = (evs ++ digest_events ascii_db 10 5 world_threads_refused
           ++ [PostParent (lit "C12345678") (run_top ascii_db 10 5 world_threads_refused)]
           ++ thr ++ [Print Done],
       inr ())
    ∧ length (filter (λ e, is_thread_post e = true) thr) ≤ 3
    ∧ Forall (thread_event_ok world_threads_refused (lit "C12345678")
                (run_related ascii_db 10 5 world_threads_refused)
                (take 3 (run_top ascii_db 10 5 world_threads_refused)).*1) thr
    ∧ Forall (λ e, match e with PostThread _ _ links => 1 ≤ length links ≤ 5 | _ => True end)
             thr
    ∧ thr = thread_events world_threads_refused (lit "C12345678")
              (run_related ascii_db 10 5 world_threads_refused)
              (take 3 (run_top ascii_db 10 5 world_threads_refused))
    ∧ ∀ k n ev,
        (k, n) ∈ take 3 (run_top ascii_db 10 5 world_threads_refused) →
        run_related ascii_db 10 5 world_threads_refused !! k = Some ev → ev ≠ [] →
        PostThread (lit "C12345678") k (take 5 ev) ∈ thr
        ∧ (slack_thread_ok world_threads_refused k = false →
           Print (WarnThreadPostFailed k) ∈ thr).
Proof.
  apply (main_posts_parent_then_threads ascii_db 10 5 world_threads_refused
           (lit "xoxb-token") (lit "C12345678 # main channel")).
  - reflexivity.
  - discriminate.
  - reflexivity.
  - discriminate.
  - vm_compute. discriminate.
  - vm_compute. reflexivity.
  - reflexivity.
Defined.

(** The threads of that run. *)
Example threads_refused_run :
  thread_events world_threads_refused (lit "C12345678")
    (run_related ascii_db 10 5 world_threads_refused)
    (take 3 (run_top ascii_db 10 5 world_threads_refused))
  = [PostThread (lit "C12345678") (lit "Rust")
       [(lit "feed_a", lit "Rust 2.0 released", lit "https://blog.example/rust-2")];
     Print (WarnThreadPostFailed (lit "Rust"));
     PostThread (lit "C12345678") (lit "2.0")
       [(lit "feed_a", lit "Rust 2.0 released", lit "https://blog.example/rust-2")];
     Print (WarnThreadPostFailed (lit "2.0"));
     PostThread (lit "C12345678") (lit "released")
       [(lit "feed_a", lit "Rust 2.0 released", lit "https://blog.example/rust-2")];
     Print (WarnThreadPostFailed (lit "released"))].
Proof. vm_compute. reflexivity. Qed.
